(** * bluemantle-trading-hub: the Apply form and the market ticker

    A shallow embedding of [src/pages/Apply.tsx] (the zod schema
    [applySchema], the form state held by the [Apply] component and its
    handlers [handleInputChange] and [handleSubmit]) and of the interval
    callback of [src/components/MarketTicker.tsx], followed by the
    properties the specification states about them.

    Conventions.
    - A JavaScript string is the list of its UTF-16 code units.
    - A JavaScript number is a double: NaN, an infinity, or the rational
      a finite double denotes; arithmetic rounds the exact result to the
      nearest double, ties to even.
    - React state is a record; a handler is a function from the state to
      the next state and the list of effects it performed (remote call,
      toast, console, session storage, timer).  [handleSubmit] is
      [async]: it is split at its single [await]. *)

From Stdlib Require Import ZArith NArith QArith Qabs Qround Qpower Qreduction.
From Stdlib Require Import Lqa Lia.
From Stdlib Require Import Ascii String List Bool.
From stdpp Require Import gmap strings list fin_maps.
Import ListNotations.

Local Open Scope string_scope.
Local Open Scope list_scope.

(* ===================================================================== *)
(** ** JavaScript strings, numbers and values *)
(* ===================================================================== *)

(** A string is a sequence of UTF-16 code units. *)
Abbreviation jsstring := (list N).

(** The code units of an ASCII literal of the source. *)
Definition lit (s : string) : jsstring :=
  List.map N_of_ascii (list_ascii_of_string s).

(** [[0-9]], which is also the complement of [\D]. *)
Definition is_digit (c : N) : bool := ((48 <=? c) && (c <=? 57))%N.

(** [[a-zA-Z]]. *)
Definition is_alpha (c : N) : bool :=
  (((65 <=? c) && (c <=? 90)) || ((97 <=? c) && (c <=? 122)))%N.

(** The class [\s] of a regular expression, which is also the
    [StrWhiteSpaceChar] that [parseInt] skips: WhiteSpace and
    LineTerminator of ECMA-262. *)
Definition is_space (c : N) : bool :=
  ((c =? 9) || (c =? 10) || (c =? 11) || (c =? 12) || (c =? 13)
   || (c =? 32) || (c =? 160) || (c =? 0x1680)
   || ((0x2000 <=? c) && (c <=? 0x200a))
   || (c =? 0x2028) || (c =? 0x2029) || (c =? 0x202f)
   || (c =? 0x205f) || (c =? 0x3000) || (c =? 0xfeff))%N.

(** *** Numbers

    A number is an IEEE 754 double: NaN, an infinity, or a finite
    double, held as the rational it denotes.  The two zeros are held as
    one: nothing modelled here (sums, products, comparisons) can tell
    them apart. *)
Inductive JsNumber :=
| NaN
| Infinity (negative : bool)
| Fin (q : Q).

Definition pow2 (e : Z) : Q := (2 ^ e)%Q.

(** The integer nearest to [y], the even one of two equally near. *)
Definition round_half_even (y : Q) : Z :=
  let f := Qfloor y in
  match (y - inject_Z f ?= 1 # 2)%Q with
  | Lt => f
  | Gt => (f + 1)%Z
  | Eq => if Z.even f then f else (f + 1)%Z
  end.

(** The exponent [e] with [2^e <= x < 2^(e+1)], for a positive [x]. *)
Definition binade (x : Q) : Z :=
  let e0 := (Z.log2 (Qnum x) - Z.log2 (Zpos (Qden x)))%Z in
  if Qle_bool (pow2 e0) x then e0 else (e0 - 1)%Z.

(** The exponent of the spacing of the doubles around a positive [x]:
    53 significant bits, and no finer than [2^-1074]. *)
Definition quantum (x : Q) : Z := (Z.max (binade x) (-1022) - 52)%Z.

(** The multiple of that spacing nearest to [x], ties to even. *)
Definition nearest (x : Q) : Q :=
  (inject_Z (round_half_even (x / pow2 (quantum x))) * pow2 (quantum x))%Q.

(** Rounding a positive rational to a double: to nearest, ties to even,
    and to infinity from [2^1024] on. *)
Definition round_pos (x : Q) : JsNumber :=
  if Qle_bool (pow2 1024) (nearest x) then Infinity false
  else Fin (Qred (nearest x)).

Definition js_neg (a : JsNumber) : JsNumber :=
  match a with
  | NaN => NaN
  | Infinity s => Infinity (negb s)
  | Fin q => Fin (- q)
  end.

(** The double an exact result is rounded to. *)
Definition round64 (x : Q) : JsNumber :=
  match (x ?= 0)%Q with
  | Eq => Fin 0
  | Gt => round_pos x
  | Lt => js_neg (round_pos (- x))
  end.

(** A positive rational that is a whole number of its spacing. *)
Definition on_grid (b : Q) : bool :=
  Qeq_bool (inject_Z (Qfloor (b / pow2 (quantum b))) * pow2 (quantum b)) b.

(** The rationals that are doubles. *)
Definition is_double (x : Q) : bool :=
  match (x ?= 0)%Q with
  | Eq => true
  | Gt => on_grid x && negb (Qle_bool (pow2 1024) x)
  | Lt => on_grid (- x) && negb (Qle_bool (pow2 1024) (- x))
  end.

(** [a + b], [a - b] and [a * b]: the exact result, rounded. *)
Definition js_add (a b : JsNumber) : JsNumber :=
  match a, b with
  | NaN, _ | _, NaN => NaN
  | Infinity s, Infinity t => if Bool.eqb s t then Infinity s else NaN
  | Infinity s, Fin _ | Fin _, Infinity s => Infinity s
  | Fin x, Fin y => round64 (x + y)
  end.

Definition js_sub (a b : JsNumber) : JsNumber := js_add a (js_neg b).

Definition js_mul (a b : JsNumber) : JsNumber :=
  match a, b with
  | NaN, _ | _, NaN => NaN
  | Infinity s, Infinity t => Infinity (xorb s t)
  | Infinity s, Fin q | Fin q, Infinity s =>
      match (q ?= 0)%Q with
      | Eq => NaN
      | Gt => Infinity s
      | Lt => Infinity (negb s)
      end
  | Fin x, Fin y => round64 (x * y)
  end.

(** [a < b], [a > b] and [a >= b]; each is false when either side is
    NaN. *)
Definition js_lt (a b : JsNumber) : bool :=
  match a, b with
  | NaN, _ | _, NaN => false
  | Infinity s, Infinity t => s && negb t
  | Infinity s, Fin _ => s
  | Fin _, Infinity t => negb t
  | Fin x, Fin y => negb (Qle_bool y x)
  end.

Definition js_gt (a b : JsNumber) : bool := js_lt b a.

Definition js_ge (a b : JsNumber) : bool :=
  match a, b with
  | NaN, _ | _, NaN => false
  | _, _ => negb (js_lt a b)
  end.

(** A numeric literal of the source: the double nearest to what it
    writes. *)
Definition num (q : Q) : JsNumber := round64 q.

(** The number of a mathematical integer: itself up to [2^53] in size,
    where every integer is a double, and the nearest double beyond. *)
Definition number_of_Z (z : Z) : JsNumber :=
  if (Z.abs z <=? 2 ^ 53)%Z then Fin (inject_Z z) else round64 (inject_Z z).

(** The values a field of the object given to [applySchema.parse] may
    hold. *)
Inductive JsValue :=
| VUndefined
| VNull
| VBoolean (b : bool)
| VNumber (n : JsNumber)
| VString (s : jsstring).

(** *** [parseInt(string)], radix omitted

    The digits are read as a mathematical integer, of which the result
    is the double.  (ECMA-262 lets an implementation ignore the decimal
    digits after the twentieth; this definition reads them all.) *)

Fixpoint trim_start (s : jsstring) : jsstring :=
  match s with
  | c :: s' => if is_space c then trim_start s' else s
  | [] => []
  end.

(** The value of [c] as a digit in radix [R], if it is one. *)
Definition digit_value (R : Z) (c : N) : option Z :=
  let d :=
    if is_digit c then Some (Z.of_N c - 48)%Z
    else if ((97 <=? c) && (c <=? 122))%N then Some (Z.of_N c - 87)%Z
    else if ((65 <=? c) && (c <=? 90))%N then Some (Z.of_N c - 55)%Z
    else None in
  match d with
  | Some v => if (v <? R)%Z then Some v else None
  | None => None
  end.

(** The longest prefix of radix-[R] digits, read as an integer; [None]
    when that prefix is empty. *)
Fixpoint parse_digits (R : Z) (s : jsstring) (acc : option Z) : option Z :=
  match s with
  | c :: s' =>
      match digit_value R c with
      | Some d => parse_digits R s' (Some (R * default 0%Z acc + d)%Z)
      | None => acc
      end
  | [] => acc
  end.

Definition parseInt (input : jsstring) : JsNumber :=
  let s := trim_start input in
  let '(sign, s) :=
    match s with
    | 45%N :: r => ((-1)%Z, r)
    | 43%N :: r => (1%Z, r)
    | _ => (1%Z, s)
    end in
  let '(R, s) :=
    match s with
    | 48%N :: 120%N :: r => (16%Z, r)
    | 48%N :: 88%N :: r => (16%Z, r)
    | _ => (10%Z, s)
    end in
  match parse_digits R s None with
  | None => NaN
  | Some m => number_of_Z (sign * m)
  end.

(** The integer a string of decimal digits writes. *)
Definition decimal_value (s : jsstring) : Z :=
  foldl (fun acc c => (10 * acc + (Z.of_N c - 48))%Z) 0%Z s.

(* ===================================================================== *)
(** ** The part of zod the schema uses *)
(* ===================================================================== *)

(** [getParsedType]: a NaN is told apart from the other numbers. *)
Inductive ZodParsedType :=
| pt_string | pt_nan | pt_number | pt_boolean | pt_undefined | pt_null.

Definition getParsedType (v : JsValue) : ZodParsedType :=
  match v with
  | VUndefined => pt_undefined
  | VNull => pt_null
  | VBoolean _ => pt_boolean
  | VNumber NaN => pt_nan
  | VNumber _ => pt_number
  | VString _ => pt_string
  end.

Definition type_name (t : ZodParsedType) : string :=
  match t with
  | pt_string => "string"
  | pt_nan => "nan"
  | pt_number => "number"
  | pt_boolean => "boolean"
  | pt_undefined => "undefined"
  | pt_null => "null"
  end.

Inductive ZodIssueCode :=
| invalid_type | invalid_string | too_small | too_big | invalid_enum_value.

(** One entry of [ZodError.errors]. *)
Record ZodIssue := mkIssue {
  code : ZodIssueCode;
  path : list string;
  message : string
}.

(** The message zod's default error map gives an [invalid_type] issue. *)
Definition invalid_type_message (expected received : ZodParsedType) : string :=
  match received with
  | pt_undefined => "Required"
  | _ => "Expected " ++ type_name expected ++ ", received " ++ type_name received
  end.

(** The checks chained on [z.string()] and [z.number()] in the source,
    each with the message given to it. *)
Inductive ZodStringCheck :=
| str_min (value : nat) (msg : string)
| str_regex (test : jsstring -> bool) (msg : string)
| str_email (msg : string).

Inductive ZodNumberCheck :=
| num_min (value : Q) (msg : string)
| num_max (value : Q) (msg : string).

(** [z.string()...], [z.number()...] and [z.enum(values, { errorMap })]
    with an [errorMap] that returns the same message for every issue. *)
Inductive ZodSchema :=
| z_string (checks : list ZodStringCheck)
| z_number (checks : list ZodNumberCheck)
| z_enum (values : list jsstring) (errorMap : string).

(** [/^[a-zA-Z\s]+$/.test] *)
Definition name_regex_test (s : jsstring) : bool :=
  match s with
  | [] => false
  | _ => forallb (fun c => is_alpha c || is_space c) s
  end.

(** [/^[0-9]{10}$/.test] *)
Definition mobile_regex_test (s : jsstring) : bool :=
  (length s =? 10)%nat && forallb is_digit s.

(** The object handed to [applySchema.parse]: the five keys of the
    object literal built in [handleSubmit]. *)
Record Candidate := mkCandidate {
  c_name : JsValue;
  c_mobile : JsValue;
  c_email : JsValue;
  c_age : JsValue;
  c_qualification : JsValue
}.

(** Property read [c[key]]. *)
Definition get_key (c : Candidate) (key : string) : JsValue :=
  if String.eqb key "name" then c_name c
  else if String.eqb key "mobile" then c_mobile c
  else if String.eqb key "email" then c_email c
  else if String.eqb key "age" then c_age c
  else if String.eqb key "qualification" then c_qualification c
  else VUndefined.

(** [applySchema.parse] returns the data or throws a [ZodError]. *)
Inductive ParseResult :=
| ParseOk (data : Candidate)
| ZodError (errors : list ZodIssue).

(** *** The e-mail pattern of zod 3.23

    The pattern of the zod 3 releases current when the page was written,
    case-insensitive and anchored at both ends: a local part of letters,
    digits and [_ ' + - .] that does not start with a dot and ends in a
    letter, a digit or one of [_ + -]; an [@]; one or more labels, each a
    letter or digit followed by letters, digits and hyphens and closed
    by a dot; two or more letters.  Two dots in a row are refused.
    The properties below hold for any pattern; this one serves to run
    the page on concrete inputs. *)

Definition is_alnum (c : N) : bool := is_alpha c || is_digit c.

Definition is_local_char (c : N) : bool :=
  (is_alnum c || (c =? 95) || (c =? 39) || (c =? 43) || (c =? 45) || (c =? 46))%N.

Definition is_local_last (c : N) : bool :=
  (is_alnum c || (c =? 95) || (c =? 43) || (c =? 45))%N.

Fixpoint has_dotdot (s : jsstring) : bool :=
  match s with
  | c :: r =>
      match r with
      | d :: _ => ((c =? 46) && (d =? 46))%N || has_dotdot r
      | [] => false
      end
  | [] => false
  end.

(** The text before and after the first [sep]. *)
Fixpoint split_first (sep : N) (s : jsstring) : option (jsstring * jsstring) :=
  match s with
  | [] => None
  | c :: r =>
      if (c =? sep)%N then Some ([], r)
      else match split_first sep r with
           | Some (a, b) => Some (c :: a, b)
           | None => None
           end
  end.

(** The pieces between the occurrences of [sep]. *)
Fixpoint split_on (sep : N) (s : jsstring) : list jsstring :=
  match s with
  | [] => [[]]
  | c :: r =>
      if (c =? sep)%N then [] :: split_on sep r
      else match split_on sep r with
           | piece :: pieces => (c :: piece) :: pieces
           | [] => [[c]]
           end
  end.

Definition local_part_ok (l : jsstring) : bool :=
  match l, last l with
  | c :: _, Some z =>
      negb (c =? 46)%N && forallb is_local_char l && is_local_last z
  | _, _ => false
  end.

Definition label_ok (l : jsstring) : bool :=
  match l with
  | c :: r => is_alnum c && forallb (fun x => is_alnum x || (x =? 45)%N) r
  | [] => false
  end.

Definition domain_ok (d : jsstring) : bool :=
  match reverse (split_on 46 d) with
  | tld :: (_ :: _) as labels =>
      (2 <=? length tld)%nat && forallb is_alpha tld && forallb label_ok labels
  | _ => false
  end.

Definition zod_emailRegex_test (s : jsstring) : bool :=
  match split_first 64 s with
  | Some (l, d) => local_part_ok l && negb (has_dotdot s) && domain_ok d
  | None => false
  end.

(* ===================================================================== *)
(** ** The market ticker *)
(* ===================================================================== *)

(** [interface MarketData]. *)
Record MarketData := mkMarketData {
  index : string;
  value : JsNumber;
  change : JsNumber;
  changePercent : JsNumber
}.

(** The snapshot [useState] starts from. *)
Definition initial_marketData : list MarketData :=
  [ mkMarketData "NIFTY 50" (num 24857.30) (num 234.50) (num 0.95);
    mkMarketData "SENSEX" (num 82890.94) (num 692.27) (num 0.84);
    mkMarketData "BANK NIFTY" (num 53234.85) (num (-156.30)) (num (-0.29));
    mkMarketData "NIFTY IT" (num 42876.15) (num 445.80) (num 1.05) ].

(** The generator behind [Math.random]: the sequence of its draws and
    how many were taken. *)
Record Rng := mkRng {
  draws : nat -> Q;
  taken : nat
}.

Definition Math_random (g : Rng) : JsNumber * Rng :=
  (Fin (draws g (taken g)), mkRng (draws g) (S (taken g))).

(** Every draw lies in [[0, 1)].  A draw is a double; what is proved
    below holds of any number in that range. *)
Definition unit_draws (g : Rng) : Prop :=
  forall n, (0 <= draws g n /\ draws g n < 1)%Q.

(** The body of the [map] callback: three calls to [Math.random], in
    the order of the object literal. *)
Definition perturb (item : MarketData) (g : Rng) : MarketData * Rng :=
  let '(r1, g) := Math_random g in
  let '(r2, g) := Math_random g in
  let '(r3, g) := Math_random g in
  ({| index := index item;
      value := js_add (value item) (js_mul (js_sub r1 (num 0.5)) (num 50));
      change := js_add (change item) (js_mul (js_sub r2 (num 0.5)) (num 10));
      changePercent :=
        js_add (changePercent item) (js_mul (js_sub r3 (num 0.5)) (num 0.2)) |},
   g).

(** [prev.map(item => ...)], the items visited from first to last. *)
Fixpoint tick (prev : list MarketData) (g : Rng) : list MarketData * Rng :=
  match prev with
  | [] => ([], g)
  | item :: rest =>
      let '(item', g1) := perturb item g in
      let '(rest', g2) := tick rest g1 in
      (item' :: rest', g2)
  end.

(** The interval callback fired [n] times in a row. *)
Fixpoint ticks (n : nat) (prev : list MarketData) (g : Rng)
  : list MarketData * Rng :=
  match n with
  | O => (prev, g)
  | S n' => let '(next, g1) := tick prev g in ticks n' next g1
  end.

(** The delay given to [setInterval], in milliseconds. *)
Definition tick_interval_ms : Z := 10000.

(** What is drawn next to the value: the icon, the colour class and the
    prefix of the change, each chosen by [item.change >= 0]. *)
Inductive Icon := TrendingUp | TrendingDown.

Record Indicator := mkIndicator {
  icon : Icon;
  colour : string;
  change_prefix : string
}.

Definition indicator (item : MarketData) : Indicator :=
  if js_ge (change item) (num 0)
  then mkIndicator TrendingUp "text-green-500" "+"
  else mkIndicator TrendingDown "text-red-500" "".

(** Half the double nearest to 0.2: the largest size of a percent
    delta, [0.1 + 2^-55 / 5], a little above 0.1. *)
Definition tenth : Q := 3602879701896397 # 36028797018963968.

(** A finite number of size at most [bound]. *)
Definition finite_below (bound : Q) (a : JsNumber) : Prop :=
  exists q, a = Fin q /\ (Qabs q <= bound)%Q.

(** [a'] is [a] moved by at most [B], up to the rounding of one sum. *)
Definition moved_within (B : Q) (a a' : JsNumber) : Prop :=
  exists q q', a = Fin q /\ a' = Fin q' /\
    (Qabs (q' - q) <= B + pow2 (-53) * (Qabs q + B) + pow2 (-1075))%Q.

(** [a] is at most [b], and at least [b]; false of NaN. *)
Definition at_most (a : JsNumber) (b : Q) : Prop :=
  a = Infinity true \/ exists q, a = Fin q /\ (q <= b)%Q.

Definition at_least (a : JsNumber) (b : Q) : Prop :=
  a = Infinity false \/ exists q, a = Fin q /\ (b <= q)%Q.

Section ApplyPage.

(** The pattern behind [z.string().email()] lives inside zod and has
    changed between its releases: it is a parameter here. *)
Variable emailRegex_test : jsstring -> bool.

(** A string check adds its issue and parsing goes on with the next
    check. *)
Definition string_check (p : list string) (s : jsstring) (ck : ZodStringCheck)
  : list ZodIssue :=
  match ck with
  | str_min value msg =>
      if (length s <? value)%nat then [mkIssue too_small p msg] else []
  | str_regex test msg =>
      if test s then [] else [mkIssue invalid_string p msg]
  | str_email msg =>
      if emailRegex_test s then [] else [mkIssue invalid_string p msg]
  end.

Definition number_check (p : list string) (x : JsNumber) (ck : ZodNumberCheck)
  : list ZodIssue :=
  match ck with
  | num_min value msg =>
      if js_lt x (num value) then [mkIssue too_small p msg] else []
  | num_max value msg =>
      if js_gt x (num value) then [mkIssue too_big p msg] else []
  end.

(** The issues a schema adds for the value [v] found at path [p]; the
    value is accepted, unchanged, when there are none. *)
Definition parse_schema (sch : ZodSchema) (p : list string) (v : JsValue)
  : list ZodIssue :=
  match sch with
  | z_string checks =>
      match v with
      | VString s => flat_map (string_check p s) checks
      | _ => [mkIssue invalid_type p
                (invalid_type_message pt_string (getParsedType v))]
      end
  | z_number checks =>
      match v with
      | VNumber NaN | VUndefined | VNull | VBoolean _ | VString _ =>
          [mkIssue invalid_type p
             (invalid_type_message pt_number (getParsedType v))]
      | VNumber x => flat_map (number_check p x) checks
      end
  | z_enum values errorMap =>
      match v with
      | VString s =>
          if bool_decide (s ∈ values) then []
          else [mkIssue invalid_enum_value p errorMap]
      | _ => [mkIssue invalid_type p errorMap]
      end
  end.

(** The five field schemas of [applySchema]. *)
Definition name_schema : ZodSchema :=
  z_string [ str_min 1 "Name is required";
             str_regex name_regex_test
               "Name must contain only letters and spaces" ].

Definition mobile_schema : ZodSchema :=
  z_string [ str_regex mobile_regex_test
               "Mobile number must be exactly 10 digits" ].

Definition email_schema : ZodSchema :=
  z_string [ str_email "Invalid email format" ].

Definition age_schema : ZodSchema :=
  z_number [ num_min 18 "Age must be at least 18";
             num_max 100 "Age must be less than 100" ].

Definition qualification_values : list jsstring :=
  [ lit "High School"; lit "UG"; lit "PG"; lit "Others" ].

Definition qualification_schema : ZodSchema :=
  z_enum qualification_values "Please select a qualification".

(** [applySchema]: the shape of the object schema, in key order. *)
Definition applySchema : list (string * ZodSchema) :=
  [ ("name", name_schema);
    ("mobile", mobile_schema);
    ("email", email_schema);
    ("age", age_schema);
    ("qualification", qualification_schema) ].

(** Every key of the shape is parsed, and the issues of all of them are
    gathered in key order. *)
Definition object_issues (shape : list (string * ZodSchema)) (c : Candidate)
  : list ZodIssue :=
  flat_map (fun kv => parse_schema (snd kv) [fst kv] (get_key c (fst kv))) shape.

Definition applySchema_parse (c : Candidate) : ParseResult :=
  match object_issues applySchema c with
  | [] => ParseOk c
  | errors => ZodError errors
  end.

(* ===================================================================== *)
(** ** The state of the [Apply] component and its handlers *)
(* ===================================================================== *)

(** [type FormData]: every field is the raw text of its input. *)
Record FormData := mkFormData {
  name : jsstring;
  mobile : jsstring;
  email : jsstring;
  age : jsstring;
  qualification : jsstring
}.

(** [keyof FormData]. *)
Inductive Field := f_name | f_mobile | f_email | f_age | f_qualification.

Definition field_key (f : Field) : string :=
  match f with
  | f_name => "name"
  | f_mobile => "mobile"
  | f_email => "email"
  | f_age => "age"
  | f_qualification => "qualification"
  end.

(** [{ ...prev, [field]: value }] *)
Definition set_field (f : Field) (v : jsstring) (fd : FormData) : FormData :=
  match f with
  | f_name => mkFormData v (mobile fd) (email fd) (age fd) (qualification fd)
  | f_mobile => mkFormData (name fd) v (email fd) (age fd) (qualification fd)
  | f_email => mkFormData (name fd) (mobile fd) v (age fd) (qualification fd)
  | f_age => mkFormData (name fd) (mobile fd) (email fd) v (qualification fd)
  | f_qualification => mkFormData (name fd) (mobile fd) (email fd) (age fd) v
  end.

(** The four [useState] cells of the component.  [errors] is the object
    used as a map from field key to message. *)
Record State := mkState {
  loading : bool;
  submitted : bool;
  formData : FormData;
  errors : gmap string string
}.

Definition setLoading (b : bool) (st : State) : State :=
  mkState b (submitted st) (formData st) (errors st).
Definition setSubmitted (b : bool) (st : State) : State :=
  mkState (loading st) b (formData st) (errors st).
Definition setFormData (fd : FormData) (st : State) : State :=
  mkState (loading st) (submitted st) fd (errors st).
Definition setErrors (e : gmap string string) (st : State) : State :=
  mkState (loading st) (submitted st) (formData st) e.

(** The state [useState] starts from. *)
Definition initial_state : State :=
  mkState false false (mkFormData [] [] [] [] []) ∅.

(** What the handlers do to the world outside the component. *)
Record ToastArgs := mkToast {
  title : string;
  description : string;
  variant : string
}.

(** The error of a failed [supabase.functions.invoke]; never a
    [ZodError]. *)
Record FunctionsError := mkFunctionsError { error_text : string }.

(** The callback given to [setTimeout]: [() => navigate(delta)]. *)
Inductive TimerCallback := cb_navigate (delta : Z).

Inductive Effect :=
| PreventDefault
| FunctionsInvoke (fn : string) (body : Candidate)
| SessionStorageSetItem (key val : string)
| SetTimeout (cb : TimerCallback) (ms : Z)
| Toast (t : ToastArgs)
| ConsoleError (label : string) (err : FunctionsError).

Definition validation_toast : ToastArgs :=
  mkToast "Validation Error" "Please check all fields and try again."
          "destructive".

Definition submission_failed_toast : ToastArgs :=
  mkToast "Submission Failed" "Something went wrong. Please try again."
          "destructive".

(** How the awaited [invoke] promise settles: fulfilled with
    [{ data, error }], or rejected. *)
Inductive InvokeOutcome :=
| Fulfilled (data : JsValue) (error : option FunctionsError)
| Rejected (reason : FunctionsError).

(** [handleInputChange]: stores the value, and drops the error of that
    field when one is shown ([errors[field]] is truthy).  The key is set
    to [undefined] in the source, which reads back like an absent key. *)
Definition handleInputChange (f : Field) (v : jsstring) (st : State) : State :=
  let st1 := setFormData (set_field f v (formData st)) st in
  match errors st !! field_key f with
  | Some msg =>
      if String.eqb msg "" then st1
      else setErrors (delete (field_key f) (errors st1)) st1
  | None => st1
  end.

(** The [onChange] of each input: the mobile input keeps the first ten
    digits of what was typed, the age input keeps the digits. *)
Definition onChange (f : Field) (raw : jsstring) (st : State) : State :=
  match f with
  | f_mobile => handleInputChange f (take 10 (filter (fun c => is_digit c = true) raw)) st
  | f_age => handleInputChange f (filter (fun c => is_digit c = true) raw) st
  | _ => handleInputChange f raw st
  end.

(** The object literal given to [applySchema.parse]. *)
Definition candidate_of (fd : FormData) : Candidate :=
  {| c_name := VString (name fd);
     c_mobile := VString (mobile fd);
     c_email := VString (email fd);
     c_age := VNumber (parseInt (age fd));
     c_qualification := VString (qualification fd) |}.

(** The [forEach] of the catch block: for each issue in order,
    [newErrors[err.path[0]] = err.message] when [err.path[0]] is truthy. *)
Definition record_issue (newErrors : gmap string string) (err : ZodIssue)
  : gmap string string :=
  match head (path err) with
  | Some k => if String.eqb k "" then newErrors else <[k := message err]> newErrors
  | None => newErrors
  end.

Definition collect_errors (issues : list ZodIssue) : gmap string string :=
  foldl record_issue ∅ issues.

(** [handleSubmit] up to its [await]: the new state, the effects, and the
    body of the call it is now waiting for, if it made one.  When
    [parse] throws, the catch block and [finally] run at once. *)
Definition handleSubmit_begin (st : State) : State * list Effect * option Candidate :=
  let st := setErrors ∅ st in
  match applySchema_parse (candidate_of (formData st)) with
  | ParseOk validatedData =>
      (setLoading true st,
       [PreventDefault; FunctionsInvoke "submit-application" validatedData],
       Some validatedData)
  | ZodError issues =>
      (setLoading false (setErrors (collect_errors issues) st),
       [PreventDefault; Toast validation_toast],
       None)
  end.

(** [handleSubmit] from the moment the promise settles, in the state
    the component is in by then. *)
Definition handleSubmit_resume (o : InvokeOutcome) (st : State) : State * list Effect :=
  match o with
  | Fulfilled _ None =>
      (setLoading false (setSubmitted true st),
       [SessionStorageSetItem "submission_success" "true";
        SetTimeout (cb_navigate (-1)) 5000])
  | Fulfilled _ (Some err) | Rejected err =>
      (setLoading false st,
       [ConsoleError "Submission error:" err; Toast submission_failed_toast])
  end.

(** One whole run of [handleSubmit] against a gateway that answers
    [gateway body], with nothing else happening in between. *)
Definition handleSubmit (gateway : Candidate -> InvokeOutcome) (st : State)
  : State * list Effect :=
  match handleSubmit_begin st with
  | (st1, eff1, None) => (st1, eff1)
  | (st1, eff1, Some body) =>
      let '(st2, eff2) := handleSubmit_resume (gateway body) st1 in
      (st2, eff1 ++ eff2)
  end.

(** *** The page as the user drives it *)

(** The rendered page: the form is replaced by the confirmation screen
    once [submitted]; the submit button carries [disabled={loading}]. *)
Definition form_rendered (st : State) : bool := negb (submitted st).
Definition submit_disabled (st : State) : bool := loading st.

Inductive UiEvent :=
| ev_change (f : Field) (raw : jsstring)
| ev_submit
| ev_settle (o : InvokeOutcome).

(** The component together with the calls it is waiting for and
    everything it has done so far. *)
Record Page := mkPage {
  ui : State;
  in_flight : list Candidate;
  effects : list Effect
}.

Definition initial_page : Page := mkPage initial_state [] [].

(** A change event reaches [onChange] while the form is on screen.  The
    submit event is fired only by an enabled submit button of a rendered
    form.  A settling promise resumes the oldest waiting [handleSubmit]. *)
Definition step (pg : Page) (ev : UiEvent) : Page :=
  match ev with
  | ev_change f raw =>
      if form_rendered (ui pg)
      then mkPage (onChange f raw (ui pg)) (in_flight pg) (effects pg)
      else pg
  | ev_submit =>
      if form_rendered (ui pg) && negb (submit_disabled (ui pg)) then
        let '(st, eff, pending) := handleSubmit_begin (ui pg) in
        mkPage st (in_flight pg ++ option_list pending) (effects pg ++ eff)
      else pg
  | ev_settle o =>
      match in_flight pg with
      | _ :: rest =>
          let '(st, eff) := handleSubmit_resume o (ui pg) in
          mkPage st rest (effects pg ++ eff)
      | [] => pg
      end
  end.

Definition run (evs : list UiEvent) (pg : Page) : Page := foldl step pg evs.

(** *** Sample inputs *)

(** The record of the specification's example, as the form holds it. *)
Definition jane : FormData :=
  mkFormData (lit "Jane Doe") (lit "9876543210") (lit "jane@example.com")
             (lit "25") (lit "UG").

(** The user typing that record into the empty form. *)
Definition fill_jane : list UiEvent :=
  [ ev_change f_name (lit "Jane Doe");
    ev_change f_mobile (lit "98765 43210");
    ev_change f_email (lit "jane@example.com");
    ev_change f_age (lit "25");
    ev_change f_qualification (lit "UG") ].

(** The form as it is mounted: every field empty. *)
Definition blank_form : FormData := mkFormData [] [] [] [] [].

(* ===================================================================== *)
(** ** Reading the results *)
(* ===================================================================== *)

(** Validation failed and one of the returned descriptions names the
    field [k]. *)
Definition reports (k : string) (r : ParseResult) : Prop :=
  exists errs, r = ZodError errs /\ exists e, e ∈ errs /\ path e = [k].

(** The value is absent, or the empty text. *)
Definition missing_or_empty (v : JsValue) : Prop :=
  v = VUndefined \/ v = VString [].

(** The text the form holds for a field. *)
Definition field_text (f : Field) (fd : FormData) : jsstring :=
  match f with
  | f_name => name fd
  | f_mobile => mobile fd
  | f_email => email fd
  | f_age => age fd
  | f_qualification => qualification fd
  end.

(** A value that is one of the four strings of the enumeration. *)
Definition in_enumeration (v : JsValue) : Prop :=
  exists s, v = VString s /\ s ∈ qualification_values.

(** The call failed with [err]: the promise was fulfilled with an error
    or was rejected. *)
Definition gateway_failed (o : InvokeOutcome) (err : FunctionsError) : Prop :=
  (exists d, o = Fulfilled d (Some err)) \/ o = Rejected err.

(** The issues of one key of [applySchema]. *)
Definition name_issues (c : Candidate) := parse_schema name_schema ["name"] (c_name c).
Definition mobile_issues (c : Candidate) := parse_schema mobile_schema ["mobile"] (c_mobile c).
Definition email_issues (c : Candidate) := parse_schema email_schema ["email"] (c_email c).
Definition age_issues (c : Candidate) := parse_schema age_schema ["age"] (c_age c).
Definition qualification_issues (c : Candidate) :=
  parse_schema qualification_schema ["qualification"] (c_qualification c).

(** Nothing is in flight, or one call is and the page is loading. *)
Definition single_flight (pg : Page) : Prop :=
  in_flight pg = [] \/
  (exists body, in_flight pg = [body]) /\ loading (ui pg) = true.


(** The issues [applySchema] returns for one field. *)
Definition field_issues (f : Field) (c : Candidate) : list ZodIssue :=
  match f with
  | f_name => name_issues c
  | f_mobile => mobile_issues c
  | f_email => email_issues c
  | f_age => age_issues c
  | f_qualification => qualification_issues c
  end.

(** The timers set and the session keys written among some effects. *)
Definition timers (effs : list Effect) : list (TimerCallback * Z) :=
  flat_map (fun e => match e with SetTimeout cb ms => [(cb, ms)] | _ => [] end)
           effs.

Definition session_writes (effs : list Effect) : list (string * string) :=
  flat_map (fun e => match e with
                     | SessionStorageSetItem k v => [(k, v)]
                     | _ => []
                     end) effs.

(** The page is loading exactly when a call is in flight, and there is
    never more than one; the confirmation screen is shown only with no
    call left. *)
Definition flight_matches_loading (pg : Page) : Prop :=
  ((in_flight pg = [] /\ loading (ui pg) = false) \/
   ((exists body, in_flight pg = [body]) /\ loading (ui pg) = true)) /\
  (submitted (ui pg) = true -> in_flight pg = []).

(** The timer and the session flag go with the confirmation screen. *)
Definition confirmed_once (pg : Page) : Prop :=
  timers (effects pg) =
    (if submitted (ui pg) then [(cb_navigate (-1), 5000%Z)] else []) /\
  session_writes (effects pg) =
    (if submitted (ui pg) then [("submission_success", "true")] else []).

(** The invokes among some effects all carry a record that validates
    and was built from a form. *)
Definition sends_valid_only (effs : list Effect) : Prop :=
  forall fn body, FunctionsInvoke fn body ∈ effs ->
    fn = "submit-application" /\ applySchema_parse body = ParseOk body /\
    exists fd, body = candidate_of fd.

(* ===================================================================== *)
(** ** Doubles *)
(* ===================================================================== *)

Section Doubles.

Local Open Scope Q_scope.

Lemma pow2_pos e : 0 < pow2 e.
Proof. apply Qpower_0_lt. reflexivity. Qed.

Lemma pow2_add a b : pow2 (a + b) == pow2 a * pow2 b.
Proof. apply Qpower_plus. discriminate. Qed.

Lemma pow2_le a b : (a <= b)%Z -> pow2 a <= pow2 b.
Proof. intros H. apply Qpower_le_compat_l; [exact H|discriminate]. Qed.

Lemma pow2_lt_inv a b : pow2 a < pow2 b -> (a < b)%Z.
Proof. intros H. apply (Qpower_lt_compat_l_inv 2); [exact H|reflexivity]. Qed.

Lemma pow2_succ a : pow2 (a + 1) == 2 * pow2 a.
Proof. rewrite pow2_add. change (pow2 1) with 2. ring. Qed.

Lemma pow2_Z n : (0 <= n)%Z -> pow2 n == inject_Z (2 ^ n).
Proof. intros H. unfold pow2. by rewrite Zpower_Qpower. Qed.

(** *** The binade of a positive rational *)

Lemma binade_spec x : 0 < x -> pow2 (binade x) <= x /\ x < pow2 (binade x + 1).
Proof.
  intros Hx. destruct x as [n d]. unfold binade. cbn [Qnum Qden].
  assert (Hn : (0 < n)%Z).
  { unfold Qlt in Hx. simpl in Hx. lia. }
  set (ln := Z.log2 n). set (ld := Z.log2 (Z.pos d)).
  destruct (Z.log2_spec n Hn) as [Hn1 Hn2]. fold ln in Hn1, Hn2.
  destruct (Z.log2_spec (Z.pos d) (Pos2Z.is_pos d)) as [Hd1 Hd2].
  fold ld in Hd1, Hd2.
  assert (Hln : (0 <= ln)%Z) by apply Z.log2_nonneg.
  assert (Hld : (0 <= ld)%Z) by apply Z.log2_nonneg.
  assert (Elow : pow2 (ln - ld - 1) <= n # d).
  { replace (ln - ld - 1)%Z with (ln + - (ld + 1))%Z by lia.
    rewrite pow2_add. unfold pow2 at 2. rewrite Qpower_opp.
    fold (pow2 (ld + 1)). rewrite (pow2_Z ln), (pow2_Z (ld + 1)) by lia.
    apply Qle_shift_div_r.
    - change 0 with (inject_Z 0). rewrite <- Zlt_Qlt. lia.
    - rewrite (Qmake_Qdiv n d). unfold Qdiv.
      rewrite <- Qmult_assoc, (Qmult_comm (/ _)), Qmult_assoc.
      apply Qle_shift_div_l.
      + change 0 with (inject_Z 0). rewrite <- Zlt_Qlt. lia.
      + rewrite <- !inject_Z_mult, <- Zle_Qle. nia. }
  assert (Ehigh : n # d < pow2 (ln - ld + 1)).
  { replace (ln - ld + 1)%Z with ((ln + 1) + - ld)%Z by lia.
    rewrite pow2_add. unfold pow2 at 2. rewrite Qpower_opp.
    fold (pow2 ld). rewrite (pow2_Z (ln + 1)), (pow2_Z ld) by lia.
    apply Qlt_shift_div_l.
    - change 0 with (inject_Z 0). rewrite <- Zlt_Qlt. lia.
    - rewrite (Qmake_Qdiv n d). unfold Qdiv.
      rewrite <- Qmult_assoc, (Qmult_comm (/ _)), Qmult_assoc.
      apply Qlt_shift_div_r.
      + change 0 with (inject_Z 0). rewrite <- Zlt_Qlt. lia.
      + rewrite <- !inject_Z_mult, <- Zlt_Qlt. nia. }
  destruct (Qle_bool (pow2 (ln - ld)) (n # d)) eqn:E.
  - apply Qle_bool_iff in E. split; [exact E|exact Ehigh].
  - split; [exact Elow|].
    replace (ln - ld - 1 + 1)%Z with (ln - ld)%Z by lia.
    apply Qnot_le_lt. intros H. apply Qle_bool_iff in H. congruence.
Qed.

(** *** Rounding to the nearest integer, ties to even *)

Lemma round_half_even_near y :
  - (1 # 2) <= inject_Z (round_half_even y) - y <= 1 # 2.
Proof.
  unfold round_half_even.
  pose proof (Qfloor_le y) as Hlo. pose proof (Qlt_floor y) as Hhi.
  rewrite inject_Z_plus in Hhi. change (inject_Z 1) with 1 in Hhi.
  destruct (Qcompare_spec (y - inject_Z (Qfloor y)) (1 # 2)) as [E|E|E].
  - destruct (Z.even (Qfloor y)); rewrite ?inject_Z_plus;
      change (inject_Z 1) with 1; split; lra.
  - split; lra.
  - rewrite inject_Z_plus. change (inject_Z 1) with 1. split; lra.
Qed.

Lemma round_half_even_floor y :
  (Qfloor y <= round_half_even y <= Qfloor y + 1)%Z.
Proof.
  unfold round_half_even.
  destruct (y - inject_Z (Qfloor y) ?= 1 # 2);
    try destruct (Z.even (Qfloor y)); lia.
Qed.

Lemma round_half_even_ge y (N : Z) : inject_Z N <= y -> (N <= round_half_even y)%Z.
Proof.
  intros H. apply Qfloor_resp_le in H. rewrite Qfloor_Z in H.
  pose proof (round_half_even_floor y). lia.
Qed.

Lemma round_half_even_le y (N : Z) : y <= inject_Z N -> (round_half_even y <= N)%Z.
Proof.
  intros H. pose proof (Qfloor_resp_le _ _ H) as Hf. rewrite Qfloor_Z in Hf.
  destruct (Z.eq_dec (Qfloor y) N) as [E|E].
  - unfold round_half_even.
    pose proof (Qfloor_le y) as Hlo. rewrite E in *.
    destruct (Qcompare_spec (y - inject_Z N) (1 # 2)) as [C|C|C];
      try lia; lra.
  - pose proof (round_half_even_floor y). lia.
Qed.

(** *** Rounding a positive rational to a double *)

Lemma quantum_binade x : (binade x - 52 <= quantum x)%Z /\ (-1074 <= quantum x)%Z.
Proof. unfold quantum. lia. Qed.

(** A positive rational lies below the top of its 53-bit window. *)
Lemma below_window x : 0 < x -> x < pow2 (quantum x + 53).
Proof.
  intros Hx. destruct (binade_spec x Hx) as [_ H].
  eapply Qlt_le_trans; [exact H|]. apply pow2_le. unfold quantum. lia.
Qed.

Lemma scaled_eq x k : x / pow2 k * pow2 k == x.
Proof. field. apply Qpower_not_0. discriminate. Qed.

Lemma round_pos_cases x :
  (pow2 1024 <= nearest x /\ round_pos x = Infinity false) \/
  (nearest x < pow2 1024 /\ exists r, round_pos x = Fin r /\ r == nearest x).
Proof.
  unfold round_pos.
  destruct (Qle_bool (pow2 1024) (nearest x)) eqn:E.
  - left. split; [by apply Qle_bool_iff|done].
  - right. split.
    + apply Qnot_le_lt. intros H. apply Qle_bool_iff in H. congruence.
    + eexists. split; [done|apply Qred_correct].
Qed.

Lemma nearest_half_quantum x :
  - (pow2 (quantum x) / 2) <= nearest x - x <= pow2 (quantum x) / 2.
Proof.
  unfold nearest. set (k := quantum x).
  pose proof (round_half_even_near (x / pow2 k)) as [H1 H2].
  pose proof (pow2_pos k) as Hp. pose proof (scaled_eq x k) as Hs.
  set (m := inject_Z (round_half_even (x / pow2 k))) in *.
  set (y := x / pow2 k) in *. set (p := pow2 k) in *.
  assert (A1 : 0 <= (m - y + (1 # 2)) * p)
    by (apply Qmult_le_0_compat; lra).
  assert (A2 : 0 <= ((1 # 2) - (m - y)) * p)
    by (apply Qmult_le_0_compat; lra).
  assert (E : p / 2 == (1 # 2) * p) by (field).
  rewrite E. split; lra.
Qed.

Lemma nearest_nonneg x : 0 <= x -> 0 <= nearest x.
Proof.
  intros Hx. unfold nearest. apply Qmult_le_0_compat.
  - change 0 with (inject_Z 0). rewrite <- Zle_Qle.
    apply round_half_even_ge. change (inject_Z 0) with 0.
    apply Qle_shift_div_l; [apply pow2_pos|]. rewrite Qmult_0_l. exact Hx.
  - apply Qlt_le_weak, pow2_pos.
Qed.

(** The rounding error: half a quantum, which is at most [2^-53] of a
    normal [x] and [2^-1075] for a subnormal one. *)
Lemma nearest_error x :
  0 < x -> Qabs (nearest x - x) <= pow2 (-53) * x + pow2 (-1075).
Proof.
  intros Hx. apply Qabs_Qle_condition.
  pose proof (nearest_half_quantum x) as [H1 H2].
  assert (Hq : pow2 (quantum x) / 2 <= pow2 (-53) * x + pow2 (-1075)).
  { unfold quantum. destruct (Z.max_spec (binade x) (-1022)) as [[Hlt ->]|[Hle ->]].
    - change (pow2 (-1022 - 52) / 2) with (pow2 (-1075)).
      pose proof (pow2_pos (-53)). nra.
    - destruct (binade_spec x Hx) as [Hb _].
      replace (binade x - 52)%Z with (binade x + -52)%Z by lia.
      rewrite pow2_add.
      assert (E : pow2 (-52) == 2 * pow2 (-53)) by reflexivity.
      assert (E1 : pow2 (binade x) * pow2 (-52) / 2
                   == pow2 (binade x) * pow2 (-53)) by (rewrite E; field).
      rewrite E1.
      pose proof (pow2_pos (-1075)). pose proof (pow2_pos (-53)) as Hu.
      assert (pow2 (binade x) * pow2 (-53) <= x * pow2 (-53))
        by (apply Qmult_le_compat_r; [exact Hb|by apply Qlt_le_weak]).
      lra. }
  split; lra.
Qed.

(** *** Rounding against a double *)

Lemma binade_mono x b : 0 < x -> x <= b -> (binade x <= binade b)%Z.
Proof.
  intros Hx Hb.
  destruct (binade_spec x Hx) as [H1 _].
  destruct (binade_spec b) as [_ H2]; [lra|].
  assert (pow2 (binade x) < pow2 (binade b + 1)) as H by lra.
  apply pow2_lt_inv in H. lia.
Qed.

Lemma on_grid_spec b :
  on_grid b = true ->
  exists N : Z, inject_Z N * pow2 (quantum b) == b /\
                b / pow2 (quantum b) == inject_Z N.
Proof.
  unfold on_grid. intros H%Qeq_bool_iff.
  exists (Qfloor (b / pow2 (quantum b))). split; [exact H|].
  rewrite <- H at 1. field. apply Qpower_not_0. discriminate.
Qed.

Lemma Qeq_le x y : x == y -> x <= y.
Proof. intros ->. apply Qle_refl. Qed.

Lemma div_le_compat x b p : 0 < p -> x <= b -> x / p <= b / p.
Proof.
  intros Hp H. apply Qle_shift_div_l; [exact Hp|].
  assert (x / p * p == x) as -> by (field; lra). exact H.
Qed.

Lemma nearest_le_double x b :
  0 < x -> x <= b -> on_grid b = true -> nearest x <= b.
Proof.
  intros Hx Hb Hg.
  destruct (on_grid_spec b Hg) as (N & HN & HN').
  pose proof (binade_mono x b Hx Hb) as Hbin.
  assert (Hk : (quantum x <= quantum b)%Z) by (unfold quantum; lia).
  destruct (Z.eq_dec (quantum x) (quantum b)) as [E|E].
  - unfold nearest. rewrite E.
    assert (Hm : (round_half_even (x / pow2 (quantum b)) <= N)%Z).
    { apply round_half_even_le. rewrite <- HN'.
      apply div_le_compat; [apply pow2_pos|exact Hb]. }
    apply (Qle_trans _ (inject_Z N * pow2 (quantum b)));
      [|by apply Qeq_le].
    apply Qmult_le_compat_r.
    + by rewrite <- Zle_Qle.
    + apply Qlt_le_weak, pow2_pos.
  - assert (Hlt : (quantum x < quantum b)%Z) by lia.
    assert (Hm : (round_half_even (x / pow2 (quantum x)) <= 2 ^ 53)%Z).
    { apply round_half_even_le. rewrite <- (pow2_Z 53) by lia.
      apply Qle_shift_div_r; [apply pow2_pos|].
      rewrite Qmult_comm, <- pow2_add.
      apply Qlt_le_weak, below_window, Hx. }
    assert (H1 : nearest x <= pow2 (quantum x + 53)).
    { unfold nearest. rewrite (Z.add_comm (quantum x)), pow2_add.
      rewrite (pow2_Z 53) by lia. apply Qmult_le_compat_r.
      - by rewrite <- Zle_Qle.
      - apply Qlt_le_weak, pow2_pos. }
    assert (H2 : pow2 (quantum x + 53) <= pow2 (binade b)).
    { apply pow2_le. unfold quantum in *. lia. }
    destruct (binade_spec b) as [H3 _]; [lra|]. lra.
Qed.

Lemma nearest_ge_double x b :
  0 < b -> b <= x -> on_grid b = true -> b <= nearest x.
Proof.
  intros Hb0 Hb Hg.
  assert (Hx : 0 < x) by lra.
  destruct (on_grid_spec b Hg) as (N & HN & HN').
  pose proof (binade_mono b x Hb0 Hb) as Hbin.
  assert (Hk : (quantum b <= quantum x)%Z) by (unfold quantum; lia).
  destruct (Z.eq_dec (quantum x) (quantum b)) as [E|E].
  - unfold nearest. rewrite E.
    assert (Hm : (N <= round_half_even (x / pow2 (quantum b)))%Z).
    { apply round_half_even_ge. rewrite <- HN'.
      apply div_le_compat; [apply pow2_pos|exact Hb]. }
    apply (Qle_trans _ (inject_Z N * pow2 (quantum b)));
      [by apply Qeq_le; symmetry|].
    apply Qmult_le_compat_r.
    + by rewrite <- Zle_Qle.
    + apply Qlt_le_weak, pow2_pos.
  - assert (Hlt : (quantum b < quantum x)%Z) by lia.
    assert (Hnorm : quantum x = (binade x - 52)%Z)
      by (unfold quantum in *; lia).
    assert (Hm : (2 ^ 52 <= round_half_even (x / pow2 (quantum x)))%Z).
    { apply round_half_even_ge. rewrite <- (pow2_Z 52) by lia.
      apply Qle_shift_div_l; [apply pow2_pos|].
      rewrite Qmult_comm, <- pow2_add, Hnorm.
      replace (binade x - 52 + 52)%Z with (binade x) by lia.
      apply binade_spec, Hx. }
    assert (H1 : pow2 (quantum x + 52) <= nearest x).
    { unfold nearest. rewrite (Z.add_comm (quantum x)), pow2_add.
      rewrite (pow2_Z 52) by lia. apply Qmult_le_compat_r.
      - by rewrite <- Zle_Qle.
      - apply Qlt_le_weak, pow2_pos. }
    assert (H2 : pow2 (quantum b + 53) <= pow2 (quantum x + 52))
      by (apply pow2_le; lia).
    pose proof (below_window b Hb0). lra.
Qed.

(** *** What [round64] returns *)

Lemma round64_pos x : 0 < x -> round64 x = round_pos x.
Proof.
  intros H. unfold round64.
  destruct (Qcompare_spec x 0); [lra|lra|done].
Qed.

Lemma round64_neg x : x < 0 -> round64 x = js_neg (round_pos (- x)).
Proof.
  intros H. unfold round64.
  destruct (Qcompare_spec x 0); [lra|done|lra].
Qed.

Lemma round64_zero x : x == 0 -> round64 x = Fin 0.
Proof.
  intros H. unfold round64.
  destruct (Qcompare_spec x 0); [done|lra|lra].
Qed.

(** A result that stays below [2^1023] in size is finite and within the
    rounding error of the exact one. *)
Lemma round64_near x :
  Qabs x <= pow2 1023 ->
  exists r, round64 x = Fin r /\
            Qabs (r - x) <= pow2 (-53) * Qabs x + pow2 (-1075).
Proof.
  assert (Hpos : forall y, 0 < y -> y <= pow2 1023 ->
    exists r, round_pos y = Fin r /\
              Qabs (r - y) <= pow2 (-53) * y + pow2 (-1075)).
  { intros y Hy Hb. pose proof (nearest_error y Hy) as He.
    destruct (round_pos_cases y) as [[Hov _]|[_ (r & Hr & Er)]].
    - exfalso. apply Qabs_Qle_condition in He as [_ He].
      assert (pow2 1024 == 2 * pow2 1023) as E by reflexivity.
      assert (pow2 (-53) * pow2 1023 + pow2 (-1075) < pow2 1023) as Hs
        by reflexivity.
      assert (pow2 (-53) * y <= pow2 (-53) * pow2 1023)
        by (apply Qmult_le_l; [apply pow2_pos|exact Hb]).
      lra.
    - exists r. split; [exact Hr|]. by rewrite Er. }
  intros Hx. destruct (Qcompare_spec x 0) as [E|E|E].
  - exists 0. split; [by apply round64_zero|].
    rewrite E. pose proof (pow2_pos (-1075)).
    change (Qabs (0 - 0)) with 0. change (Qabs 0) with 0. lra.
  - rewrite round64_neg by done.
    assert (Qabs x == - x) as Ea by (apply Qabs_neg; lra).
    destruct (Hpos (- x)) as (r & Hr & Hb); [lra|by rewrite <- Ea|].
    rewrite Hr. exists (- r). split; [done|].
    rewrite Ea.
    assert (- r - x == - (r - - x)) as -> by ring.
    by rewrite Qabs_opp.
  - rewrite round64_pos by done.
    assert (Qabs x == x) as Ea by (apply Qabs_pos; lra).
    destruct (Hpos x) as (r & Hr & Hb); [lra|by rewrite <- Ea|].
    exists r. split; [done|]. by rewrite Ea.
Qed.

Lemma is_double_pos b :
  0 < b -> is_double b = on_grid b && negb (Qle_bool (pow2 1024) b).
Proof.
  intros H. unfold is_double. destruct (Qcompare_spec b 0); [lra|lra|done].
Qed.

Lemma is_double_neg b :
  b < 0 -> is_double b = on_grid (- b) && negb (Qle_bool (pow2 1024) (- b)).
Proof.
  intros H. unfold is_double. destruct (Qcompare_spec b 0); [lra|done|lra].
Qed.

(** Rounding never crosses a double: what is at most a double stays at
    most that double, and likewise from above. *)
Lemma round64_le_double x b :
  x <= b -> is_double b = true ->
  round64 x = Infinity true \/ exists r, round64 x = Fin r /\ r <= b.
Proof.
  intros Hx Hd.
  destruct (Qcompare_spec x 0) as [E|E|E].
  - right. exists 0. split; [by apply round64_zero|lra].
  - rewrite round64_neg by done.
    destruct (Qcompare_spec b 0) as [Eb|Eb|Eb].
    + destruct (round_pos_cases (- x)) as [[_ ->]|[_ (r & -> & Er)]];
        [by left|right]. exists (- r). split; [done|].
      pose proof (nearest_nonneg (- x)). lra.
    + rewrite is_double_neg in Hd by done.
      apply andb_prop in Hd as [Hg _].
      pose proof (nearest_ge_double (- x) (- b)) as H.
      destruct (round_pos_cases (- x)) as [[_ ->]|[_ (r & -> & Er)]];
        [by left|right]. exists (- r). split; [done|].
      rewrite Er. specialize (H ltac:(lra) ltac:(lra) Hg). lra.
    + destruct (round_pos_cases (- x)) as [[_ ->]|[_ (r & -> & Er)]];
        [by left|right]. exists (- r). split; [done|].
      pose proof (nearest_nonneg (- x)). lra.
  - rewrite round64_pos by done.
    rewrite is_double_pos in Hd by lra.
    apply andb_prop in Hd as [Hg Hfin].
    pose proof (nearest_le_double x b E Hx Hg) as H.
    right. destruct (round_pos_cases x) as [[Hov _]|[_ (r & -> & Er)]].
    + exfalso. apply negb_true_iff in Hfin.
      assert (Qle_bool (pow2 1024) b = true) by (apply Qle_bool_iff; lra).
      congruence.
    + exists r. split; [done|]. by rewrite Er.
Qed.

Lemma Qle_bool_ext a x y : x == y -> Qle_bool a x = Qle_bool a y.
Proof.
  intros E. destruct (Qle_bool a x) eqn:H1; destruct (Qle_bool a y) eqn:H2;
    try done.
  - apply Qle_bool_iff in H1.
    assert (Qle_bool a y = true) by (apply Qle_bool_iff; lra). congruence.
  - apply Qle_bool_iff in H2.
    assert (Qle_bool a x = true) by (apply Qle_bool_iff; lra). congruence.
Qed.

Lemma is_double_opp b : is_double (- b) = is_double b.
Proof.
  destruct (Qcompare_spec b 0) as [E|E|E].
  - unfold is_double.
    destruct (Qcompare_spec b 0); destruct (Qcompare_spec (- b) 0);
      try done; lra.
  - rewrite (is_double_neg b), (is_double_pos (- b)) by lra. done.
  - rewrite (is_double_pos b), (is_double_neg (- b)) by lra.
    assert (on_grid (- - b) = on_grid b) as ->.
    { by destruct b as [[|n|n] d]. }
    f_equal. f_equal. apply Qle_bool_ext. ring.
Qed.

Lemma round64_ge_double x b :
  b <= x -> is_double b = true ->
  round64 x = Infinity false \/ exists r, round64 x = Fin r /\ b <= r.
Proof.
  intros Hx Hd.
  destruct (Qcompare_spec x 0) as [E|E|E].
  - right. exists 0. split; [by apply round64_zero|lra].
  - rewrite round64_neg by done.
    rewrite is_double_neg in Hd by lra.
    apply andb_prop in Hd as [Hg Hfin].
    pose proof (nearest_le_double (- x) (- b) ltac:(lra) ltac:(lra) Hg) as H.
    right. destruct (round_pos_cases (- x)) as [[Hov _]|[_ (r & -> & Er)]].
    + exfalso. apply negb_true_iff in Hfin.
      assert (Qle_bool (pow2 1024) (- b) = true) by (apply Qle_bool_iff; lra).
      congruence.
    + exists (- r). split; [done|]. rewrite Er. lra.
  - rewrite round64_pos by done.
    destruct (Qcompare_spec b 0) as [Eb|Eb|Eb].
    + destruct (round_pos_cases x) as [[_ ->]|[_ (r & -> & Er)]];
        [by left|right]. exists r. split; [done|].
      pose proof (nearest_nonneg x). lra.
    + destruct (round_pos_cases x) as [[_ ->]|[_ (r & -> & Er)]];
        [by left|right]. exists r. split; [done|].
      pose proof (nearest_nonneg x). lra.
    + rewrite is_double_pos in Hd by done.
      apply andb_prop in Hd as [Hg _].
      pose proof (nearest_ge_double x b Eb Hx Hg) as H.
      destruct (round_pos_cases x) as [[_ ->]|[_ (r & -> & Er)]];
        [by left|right]. exists r. split; [done|]. by rewrite Er.
Qed.

(** What is at most a double in size rounds to a finite number that is
    at most that double in size. *)
Lemma round64_bounded x b :
  Qabs x <= b -> is_double b = true ->
  exists r, round64 x = Fin r /\ Qabs r <= b.
Proof.
  intros Hx Hd. apply Qabs_Qle_condition in Hx as [Hlo Hhi].
  pose proof Hd as Hd'. rewrite <- is_double_opp in Hd'.
  destruct (round64_le_double x b Hhi Hd) as [E1|(r & E1 & H1)];
    destruct (round64_ge_double x (- b) Hlo Hd') as [E2|(r' & E2 & H2)];
    try congruence.
  exists r. split; [done|]. apply Qabs_Qle_condition.
  rewrite E1 in E2. injection E2 as <-. by split.
Qed.

Lemma round64_not_NaN x : round64 x <> NaN.
Proof.
  unfold round64, round_pos.
  destruct (x ?= 0); try done.
  - by destruct (Qle_bool (pow2 1024) (nearest (- x))).
  - by destruct (Qle_bool (pow2 1024) (nearest x)).
Qed.

(** The literals of the source. *)
Lemma num_values :
  num 0 = Fin 0 /\ num 18 = Fin 18 /\ num 100 = Fin 100 /\
  num 0.5 = Fin (1 # 2) /\ num 50 = Fin 50 /\ num 10 = Fin 10 /\
  num 0.2 = Fin (3602879701896397 # 18014398509481984).
Proof. by vm_compute. Qed.

End Doubles.

(* ===================================================================== *)
(** ** The validation schema *)
(* ===================================================================== *)

Lemma is_digit_range c : is_digit c = true <-> (48 <= c <= 57)%N.
Proof. unfold is_digit. rewrite andb_true_iff, !N.leb_le. tauto. Qed.

Lemma object_issues_applySchema c :
  object_issues applySchema c =
  name_issues c ++ mobile_issues c ++ email_issues c ++ age_issues c
    ++ qualification_issues c.
Proof.
  unfold object_issues, applySchema. cbn [flat_map fst snd].
  by rewrite app_nil_r.
Qed.

Lemma applySchema_parse_ok c :
  object_issues applySchema c = [] -> applySchema_parse c = ParseOk c.
Proof. unfold applySchema_parse. by intros ->. Qed.

Lemma applySchema_parse_error c :
  object_issues applySchema c <> [] ->
  applySchema_parse c = ZodError (object_issues applySchema c).
Proof. unfold applySchema_parse. by destruct (object_issues applySchema c). Qed.

(** [parse] returns its argument or throws: there is no third outcome
    and the data is never rewritten. *)
Lemma applySchema_parse_cases c :
  (object_issues applySchema c = [] /\ applySchema_parse c = ParseOk c) \/
  (object_issues applySchema c <> [] /\
   applySchema_parse c = ZodError (object_issues applySchema c)).
Proof.
  destruct (object_issues applySchema c) eqn:E.
  - left. split; [done|]. by apply applySchema_parse_ok.
  - right. split; [done|]. rewrite <- E. apply applySchema_parse_error. by rewrite E.
Qed.

Lemma applySchema_parse_ok_inv c data :
  applySchema_parse c = ParseOk data ->
  data = c /\ object_issues applySchema c = [].
Proof.
  destruct (applySchema_parse_cases c) as [[E ->]|[E ->]]; [|done].
  by intros [= <-].
Qed.

(** Every issue a schema adds carries the path it was given. *)
Lemma parse_schema_path sch p v e :
  e ∈ parse_schema sch p v -> path e = p.
Proof.
  destruct sch as [checks|checks|values msg]; simpl.
  - destruct v; try (rewrite list_elem_of_singleton; by intros ->).
    rewrite list_elem_of_In, in_flat_map. intros (ck & _ & Hin).
    destruct ck; simpl in Hin;
      match type of Hin with context [if ?b then _ else _] => destruct b end;
      simpl in Hin; intuition; by subst.
  - destruct v as [| | |[|s|q]|];
      try (rewrite list_elem_of_singleton; by intros ->);
      rewrite list_elem_of_In, in_flat_map; intros (ck & _ & Hin);
    destruct ck; simpl in Hin;
      match type of Hin with context [if ?b then _ else _] => destruct b end;
      simpl in Hin; intuition; by subst.
  - destruct v; try (rewrite list_elem_of_singleton; by intros ->).
    case_bool_decide; [by rewrite elem_of_nil|].
    rewrite list_elem_of_singleton; by intros ->.
Qed.

(** A key whose schema adds an issue makes the whole parse fail, and the
    issue is among those returned. *)
Lemma failing_key_reported c k sch :
  (k, sch) ∈ applySchema ->
  parse_schema sch [k] (get_key c k) <> [] ->
  reports k (applySchema_parse c).
Proof.
  intros Hin Hne.
  destruct (parse_schema sch [k] (get_key c k)) as [|e l] eqn:E; [done|].
  assert (He : e ∈ object_issues applySchema c).
  { unfold object_issues. rewrite list_elem_of_In, in_flat_map.
    exists (k, sch). split; [by apply list_elem_of_In|].
    simpl. rewrite E. by left. }
  exists (object_issues applySchema c). split.
  - apply applySchema_parse_error. intros Hnil. rewrite Hnil in He.
    by apply elem_of_nil in He.
  - exists e. split; [done|].
    apply (parse_schema_path sch [k] (get_key c k)). rewrite E. by left.
Qed.

(** Every issue of [applySchema] sits at one of the five field keys. *)
Lemma object_issues_path c e :
  e ∈ object_issues applySchema c -> exists f, path e = [field_key f].
Proof.
  rewrite object_issues_applySchema, !elem_of_app.
  intros [H|[H|[H|[H|H]]]]; apply parse_schema_path in H.
  - by exists f_name.
  - by exists f_mobile.
  - by exists f_email.
  - by exists f_age.
  - by exists f_qualification.
Qed.

Lemma field_key_nonempty f : field_key f <> "".
Proof. by destruct f. Qed.

(** *** The error map built from the issues *)

Lemma collect_errors_snoc issues e :
  collect_errors (issues ++ [e]) = record_issue (collect_errors issues) e.
Proof. unfold collect_errors. by rewrite foldl_app. Qed.

(** An entry of the map is the message of one of the issues, filed under
    the first element of its path. *)
Lemma collect_errors_lookup_Some issues k m :
  collect_errors issues !! k = Some m ->
  exists e, e ∈ issues /\ head (path e) = Some k /\ message e = m.
Proof.
  induction issues as [|e issues IH] using rev_ind.
  - unfold collect_errors. simpl. by rewrite lookup_empty.
  - rewrite collect_errors_snoc. unfold record_issue.
    destruct (head (path e)) as [k'|] eqn:Hk.
    + destruct (String.eqb_spec k' "") as [->|Hne].
      * intros Hl. destruct (IH Hl) as (e' & Hin & Hrest). exists e'. split; [apply elem_of_app; by left|done].
      * destruct (decide (k' = k)) as [->|Hkk].
        -- rewrite lookup_insert_eq. intros [= <-]. exists e. split; [apply elem_of_app; right; by apply list_elem_of_singleton|done].
        -- rewrite lookup_insert_ne by done.
           intros Hl. destruct (IH Hl) as (e' & Hin & Hrest). exists e'. split; [apply elem_of_app; by left|done].
    + intros Hl. destruct (IH Hl) as (e' & Hin & Hrest). exists e'. split; [apply elem_of_app; by left|done].
Qed.

(** Every issue filed under a non-empty key leaves an entry for it. *)
Lemma collect_errors_is_Some issues e k :
  e ∈ issues -> head (path e) = Some k -> k <> "" ->
  is_Some (collect_errors issues !! k).
Proof.
  intros He Hk Hne.
  induction issues as [|e' issues IH] using rev_ind.
  - by apply elem_of_nil in He.
  - rewrite collect_errors_snoc. unfold record_issue.
    apply elem_of_app in He as [He|He%list_elem_of_singleton].
    + specialize (IH He).
      destruct (head (path e')) as [k'|]; [|done].
      destruct (String.eqb k' ""); [done|].
      destruct (decide (k' = k)) as [->|Hkk].
      * rewrite lookup_insert_eq. by eexists.
      * by rewrite lookup_insert_ne.
    + subst e'. rewrite Hk.
      destruct (String.eqb_spec k ""); [done|].
      rewrite lookup_insert_eq. by eexists.
Qed.

(** When all the issues under a key carry the same message, that
    message is the entry. *)
Lemma collect_errors_uniform issues k m e :
  e ∈ issues -> head (path e) = Some k -> k <> "" ->
  (forall e', e' ∈ issues -> head (path e') = Some k -> message e' = m) ->
  collect_errors issues !! k = Some m.
Proof.
  intros He Hk Hne Hall.
  destruct (collect_errors_is_Some issues e k He Hk Hne) as [m' Hm'].
  rewrite Hm'. f_equal.
  apply collect_errors_lookup_Some in Hm' as (e' & He' & Hk' & <-).
  by apply Hall.
Qed.

(** *** The mobile rule *)

Lemma mobile_regex_test_spec s :
  mobile_regex_test s = true <->
  length s = 10%nat /\ Forall (fun c => (48 <= c <= 57)%N) s.
Proof.
  unfold mobile_regex_test.
  rewrite andb_true_iff, Nat.eqb_eq, forallb_forall, Forall_forall.
  split; intros [Hlen Hall]; (split; [done|]); intros c Hc.
  - apply is_digit_range, Hall. by apply list_elem_of_In.
  - apply is_digit_range, Hall. by apply list_elem_of_In.
Qed.

(** C6. The mobile rule lets a value through exactly when it is a string
    of exactly ten code units, each one of the digits 0 to 9; a record
    whose mobile value is refused by the rule fails validation with an
    entry for [mobile]; ["12345"] is refused and ["1234567890"] passes. *)
Theorem mobile_rule_exactly_ten_digits :
  (forall v,
     parse_schema mobile_schema ["mobile"] v = [] <->
     exists s, v = VString s /\ length s = 10%nat /\
               Forall (fun c => (48 <= c <= 57)%N) s) /\
  (forall c, mobile_issues c <> [] -> reports "mobile" (applySchema_parse c)) /\
  parse_schema mobile_schema ["mobile"] (VString (lit "12345")) <> [] /\
  parse_schema mobile_schema ["mobile"] (VString (lit "1234567890")) = [].
Proof.
  split; [|split; [|split]].
  - intros v. split.
    + destruct v as [| | | |s]; simpl; try discriminate.
      destruct (mobile_regex_test s) eqn:E; [|discriminate].
      intros _. exists s. split; [done|]. by apply mobile_regex_test_spec.
    + intros (s & -> & Hs). simpl.
      apply mobile_regex_test_spec in Hs. by rewrite Hs.
  - intros c Hc. apply (failing_key_reported c "mobile" mobile_schema); [|done].
    unfold applySchema. set_solver.
  - by vm_compute.
  - by vm_compute.
Qed.

(** *** The age rule *)

Lemma age_schema_accepts v :
  parse_schema age_schema ["age"] v = [] <->
  exists q, v = VNumber (Fin q) /\ (18 <= q <= 100)%Q.
Proof.
  destruct num_values as (_ & N18 & N100 & _).
  split.
  - destruct v as [| | |[|s|q]|]; try discriminate.
    + unfold age_schema, parse_schema. cbn [flat_map number_check].
      rewrite N18, N100. by destruct s.
    + unfold age_schema, parse_schema. cbn [flat_map number_check].
      rewrite N18, N100. unfold js_gt, js_lt.
      destruct (Qle_bool 18 q) eqn:E1; [|discriminate].
      destruct (Qle_bool q 100) eqn:E2; [|discriminate].
      intros _. exists q. split; [done|].
      split; by apply Qle_bool_iff.
  - intros (q & -> & H1 & H2).
    unfold age_schema, parse_schema. cbn [flat_map number_check].
    rewrite N18, N100. unfold js_gt, js_lt.
    apply Qle_bool_iff in H1, H2. by rewrite H1, H2.
Qed.

(** An integer text is accepted as an age exactly from 18 to 100; a
    number beyond [2^53] in size is rounded but stays beyond. *)
Lemma age_accepts_number_of_Z z :
  parse_schema age_schema ["age"] (VNumber (number_of_Z z)) = [] <->
  (18 <= z <= 100)%Z.
Proof.
  rewrite age_schema_accepts. unfold number_of_Z.
  destruct (Z.leb_spec (Z.abs z) (2 ^ 53)) as [Hs|Hb].
  - split.
    + intros (q & [= <-] & H1 & H2).
      change 18%Q with (inject_Z 18) in H1.
      change 100%Q with (inject_Z 100) in H2.
      rewrite <- Zle_Qle in H1, H2. lia.
    + intros Hz. exists (inject_Z z). split; [done|].
      change 18%Q with (inject_Z 18). change 100%Q with (inject_Z 100).
      rewrite <- !Zle_Qle. lia.
  - split; [|lia]. intros (q & Hq & H1 & H2). exfalso.
    assert (Hd : is_double (inject_Z (2 ^ 53)) = true) by (by vm_compute).
    assert (Hd' : is_double (- inject_Z (2 ^ 53)) = true) by (by vm_compute).
    destruct (Z.abs_spec z) as [[Hz Ha]|[Hz Ha]]; rewrite Ha in Hb.
    + destruct (round64_ge_double (inject_Z z) (inject_Z (2 ^ 53)))
        as [E|(r & E & Hr)]; [rewrite <- Zle_Qle; lia|done| |];
        rewrite E in Hq; [done|]. injection Hq as <-.
      assert ((100 < inject_Z (2 ^ 53))%Q) by reflexivity. lra.
    + destruct (round64_le_double (inject_Z z) (- inject_Z (2 ^ 53)))
        as [E|(r & E & Hr)];
        [rewrite <- inject_Z_opp, <- Zle_Qle; lia|done| |];
        rewrite E in Hq; [done|]. injection Hq as <-.
      assert ((- inject_Z (2 ^ 53) < 18)%Q) by reflexivity. lra.
Qed.

Lemma parseInt_cases s : parseInt s = NaN \/ exists z, parseInt s = number_of_Z z.
Proof.
  unfold parseInt.
  destruct (match trim_start s with
            | [] => (1%Z, trim_start s)
            | c :: r => _ end) as [sign s1].
  destruct (match s1 with [] => (10%Z, s1) | c :: r => _ end) as [R s2].
  destruct (parse_digits R s2 None) as [m|]; [right|by left].
  by exists (sign * m)%Z.
Qed.

Lemma age_of_form_accepted fd :
  age_issues (candidate_of fd) = [] ->
  exists z, c_age (candidate_of fd) = VNumber (Fin (inject_Z z)) /\
            (18 <= z <= 100)%Z.
Proof.
  unfold age_issues, candidate_of. cbn [c_age]. intros H.
  destruct (parseInt_cases (age fd)) as [E|[z E]].
  - rewrite E in H. discriminate.
  - rewrite E in H |- *. apply age_accepts_number_of_Z in H.
    exists z. split; [|done]. unfold number_of_Z.
    destruct (Z.leb_spec (Z.abs z) (2 ^ 53)) as [_|Hb]; [done|lia].
Qed.


(** *** The qualification rule *)

Lemma qualification_message_not_generic expected received :
  invalid_type_message expected received <> "Please select a qualification".
Proof. by destruct expected, received. Qed.

(** C8. A qualification value outside the enumeration gets exactly one
    issue, at [qualification], whose message is the dedicated one and is
    none of the messages for a type mismatch; the record fails
    validation and the form shows that message for the field. *)
Theorem qualification_outside_enumeration v :
  ~ in_enumeration v ->
  (exists cd,
     parse_schema qualification_schema ["qualification"] v =
       [mkIssue cd ["qualification"] "Please select a qualification"]) /\
  (forall expected received,
     invalid_type_message expected received <> "Please select a qualification") /\
  (forall c, c_qualification c = v ->
     exists errs,
       applySchema_parse c = ZodError errs /\
       (exists e, e ∈ errs /\ path e = ["qualification"]) /\
       (forall e, e ∈ errs -> path e = ["qualification"] ->
                  message e = "Please select a qualification") /\
       collect_errors errs !! "qualification" =
         Some "Please select a qualification").
Proof.
  intros Hv.
  assert (Hq : exists cd,
     parse_schema qualification_schema ["qualification"] v =
       [mkIssue cd ["qualification"] "Please select a qualification"]).
  { destruct v as [| | | |s]; simpl; eauto.
    case_bool_decide as Hs; eauto.
    destruct Hv. by exists s. }
  split; [done|]. split; [apply qualification_message_not_generic|].
  intros c Hc. destruct Hq as [cd Hq].
  assert (Hne : object_issues applySchema c <> []).
  { rewrite object_issues_applySchema. unfold qualification_issues.
    rewrite Hc, Hq. intros H. repeat apply app_eq_nil in H as [_ H]. done. }
  exists (object_issues applySchema c).
  split; [by apply applySchema_parse_error|].
  assert (Hin : mkIssue cd ["qualification"] "Please select a qualification"
                  ∈ object_issues applySchema c).
  { rewrite object_issues_applySchema.
    unfold qualification_issues. rewrite Hc, Hq. set_solver. }
  assert (Hall : forall e, e ∈ object_issues applySchema c ->
                   path e = ["qualification"] ->
                   message e = "Please select a qualification");
    [|split; [by eauto|split; [done|]]].
  2:{ apply (collect_errors_uniform _ _ _
               (mkIssue cd ["qualification"] "Please select a qualification"));
        [done|done|done|].
      intros e He Hk. apply Hall; [done|].
      destruct (object_issues_path c e He) as [f Hf].
      rewrite Hf in Hk |- *. simpl in Hk. congruence. }
  - intros e He Hp. rewrite object_issues_applySchema in He.
    rewrite !elem_of_app in He.
    destruct He as [He|[He|[He|[He|He]]]];
      try (apply parse_schema_path in He; congruence).
    unfold qualification_issues in He. rewrite Hc, Hq in He.
    apply list_elem_of_singleton in He. by subst.
Qed.

(** *** The name rule *)

(** C10. A record whose name is a non-empty string of whitespace only,
    and whose other four fields are valid, is accepted as it is. *)
Theorem whitespace_only_name_accepted c s :
  c_name c = VString s ->
  s <> [] ->
  Forall (fun ch => is_space ch = true) s ->
  mobile_issues c = [] ->
  email_issues c = [] ->
  age_issues c = [] ->
  qualification_issues c = [] ->
  name_issues c = [] /\ applySchema_parse c = ParseOk c.
Proof.
  intros Hn Hs Hws Hm He Ha Hq.
  assert (Hname : name_issues c = []).
  { unfold name_issues. rewrite Hn. simpl.
    destruct s as [|ch s]; [done|]. simpl.
    assert (forallb (fun c0 => is_alpha c0 || is_space c0) (ch :: s) = true) as H.
    { apply forallb_forall. intros x Hx%list_elem_of_In.
      rewrite Forall_forall in Hws. rewrite (Hws x Hx). apply orb_true_r. }
    simpl in H. by rewrite H. }
  split; [done|].
  apply applySchema_parse_ok.
  by rewrite object_issues_applySchema, Hname, Hm, He, Ha, Hq.
Qed.

(* ===================================================================== *)
(** ** The submit handler *)
(* ===================================================================== *)

Lemma applySchema_parse_error_inv c errs :
  applySchema_parse c = ZodError errs ->
  errs = object_issues applySchema c /\ errs <> [].
Proof.
  destruct (applySchema_parse_cases c) as [[E ->]|[E ->]]; [done|].
  by intros [= <-].
Qed.

Lemma handleSubmit_begin_invalid st issues :
  applySchema_parse (candidate_of (formData st)) = ZodError issues ->
  handleSubmit_begin st =
    (mkState false (submitted st) (formData st) (collect_errors issues),
     [PreventDefault; Toast validation_toast], None).
Proof. unfold handleSubmit_begin. simpl. by intros ->. Qed.

Lemma handleSubmit_begin_valid st data :
  applySchema_parse (candidate_of (formData st)) = ParseOk data ->
  handleSubmit_begin st =
    (mkState true (submitted st) (formData st) ∅,
     [PreventDefault; FunctionsInvoke "submit-application" data], Some data).
Proof. unfold handleSubmit_begin. simpl. by intros ->. Qed.

(** C2. When the form validates, [handleSubmit] sets [loading], which
    disables the submit button, and invokes ["submit-application"] with
    the validated record, which is the record it built from the form;
    when the call succeeds it sets [submitted], stores
    [submission_success] in the session storage and sets one timer of
    5000 ms for [navigate(-1)]. *)
Theorem valid_submission_succeeds st data :
  applySchema_parse (candidate_of (formData st)) = ParseOk data ->
  let st1 := mkState true (submitted st) (formData st) ∅ in
  let call := FunctionsInvoke "submit-application" data in
  let done_eff := [SessionStorageSetItem "submission_success" "true";
                   SetTimeout (cb_navigate (-1)) 5000] in
  data = candidate_of (formData st) /\
  handleSubmit_begin st = (st1, [PreventDefault; call], Some data) /\
  submit_disabled st1 = true /\
  (forall d st2,
     handleSubmit_resume (Fulfilled d None) st2 =
       (mkState false true (formData st2) (errors st2), done_eff)) /\
  (forall gateway d, gateway data = Fulfilled d None ->
     handleSubmit gateway st =
       (mkState false true (formData st) ∅, [PreventDefault; call] ++ done_eff)).
Proof.
  intros Hparse st1 call done_eff.
  pose proof (handleSubmit_begin_valid st data Hparse) as Hb.
  apply applySchema_parse_ok_inv in Hparse as [Hdata _].
  split; [done|]. split; [done|]. split; [done|]. split; [done|].
  intros gateway d Hg. unfold handleSubmit. rewrite Hb, Hg. done.
Qed.

(** C3. When the call fails, whether the promise is fulfilled with an
    error or rejected, the error is written to the console and the
    "Submission Failed" toast, which is not the validation toast, is
    shown; the state is no longer loading and keeps the form data, the
    errors and [submitted] as they were; no further call is made. *)
Theorem gateway_failure_reported st o err :
  gateway_failed o err ->
  let fail_eff := [ConsoleError "Submission error:" err;
                   Toast submission_failed_toast] in
  handleSubmit_resume o st =
    (mkState false (submitted st) (formData st) (errors st), fail_eff) /\
  submission_failed_toast <> validation_toast /\
  (forall fn body, FunctionsInvoke fn body ∉ fail_eff) /\
  (forall gateway data,
     applySchema_parse (candidate_of (formData st)) = ParseOk data ->
     gateway data = o ->
     handleSubmit gateway st =
       (mkState false (submitted st) (formData st) ∅,
        [PreventDefault; FunctionsInvoke "submit-application" data] ++ fail_eff)) /\
  (forall pg c rest, ui pg = st -> in_flight pg = c :: rest ->
     step pg (ev_settle o) =
       mkPage (mkState false (submitted st) (formData st) (errors st))
              rest (effects pg ++ fail_eff)).
Proof.
  intros Hfail fail_eff.
  assert (Hr : forall st0, handleSubmit_resume o st0 =
    (mkState false (submitted st0) (formData st0) (errors st0), fail_eff)).
  { intros st0. by destruct Hfail as [[d ->] | ->]. }
  split; [apply Hr|]. split; [done|]. split; [|split].
  - intros fn body Hin. unfold fail_eff in Hin.
    rewrite !elem_of_cons, elem_of_nil in Hin.
    by destruct Hin as [?|[?|?]].
  - intros gateway data Hparse Hg. unfold handleSubmit.
    by rewrite (handleSubmit_begin_valid st data Hparse), Hg, Hr.
  - intros pg c rest <- Hfl. unfold step. by rewrite Hfl, Hr.
Qed.

(* ===================================================================== *)
(** ** One submission at a time *)
(* ===================================================================== *)

Lemma onChange_loading f raw st : loading (onChange f raw st) = loading st.
Proof.
  destruct f; unfold onChange, handleInputChange;
    repeat match goal with
           | |- context [match ?x with _ => _ end] => destruct x
           end; done.
Qed.

Lemma step_single_flight pg ev : single_flight pg -> single_flight (step pg ev).
Proof.
  intros Hinv. destruct ev as [f raw| |o]; unfold step.
  - destruct (form_rendered (ui pg)); [|done].
    destruct Hinv as [H|[H Hl]]; [by left|right]. simpl.
    by rewrite onChange_loading.
  - destruct (form_rendered (ui pg)); simpl; [|done].
    unfold submit_disabled.
    destruct (loading (ui pg)) eqn:Hl; simpl; [done|].
    destruct Hinv as [Hnil|[_ ?]]; [|congruence].
    unfold handleSubmit_begin.
    destruct (applySchema_parse _) as [data|errs]; simpl; rewrite Hnil.
    + right. split; [by exists data|done].
    + by left.
  - destruct Hinv as [Hnil|[[body Hb] Hl]].
    + rewrite Hnil. by left.
    + rewrite Hb. destruct (handleSubmit_resume o (ui pg)). by left.
Qed.

Lemma run_single_flight evs pg : single_flight pg -> single_flight (run evs pg).
Proof.
  revert pg. induction evs as [|ev evs IH]; intros pg Hinv; [done|].
  simpl. apply IH. by apply step_single_flight.
Qed.

(** C1. While a call is in flight the page is loading, and while it is
    loading the submit button is disabled: the user's submit then does
    nothing, no validation, no call, no change of state, no effect.
    Whatever the user does on a mounted page and however the calls
    settle, at most one call is in flight. *)
Theorem submit_disabled_while_loading :
  (forall pg, loading (ui pg) = true -> step pg ev_submit = pg) /\
  (forall evs,
     in_flight (run evs initial_page) <> [] ->
     loading (ui (run evs initial_page)) = true /\
     step (run evs initial_page) ev_submit = run evs initial_page) /\
  (forall evs, (length (in_flight (run evs initial_page)) <= 1)%nat).
Proof.
  assert (Hnoop : forall pg, loading (ui pg) = true -> step pg ev_submit = pg).
  { intros pg Hl. unfold step, submit_disabled. rewrite Hl.
    by rewrite andb_false_r. }
  split; [exact Hnoop|]. split.
  - intros evs Hin.
    destruct (run_single_flight evs initial_page) as [Hnil|[_ Hl]];
      [by left|done|].
    split; [exact Hl|by apply Hnoop].
  - intros evs.
    destruct (run_single_flight evs initial_page) as [->|[[body ->] _]];
      [by left| |]; simpl; lia.
Qed.

(* ===================================================================== *)
(** ** The inputs of the form *)
(* ===================================================================== *)

Lemma set_field_same f v fd : field_text f (set_field f v fd) = v.
Proof. by destruct f. Qed.

Lemma set_field_other f f' v fd :
  f' <> f -> field_text f' (set_field f v fd) = field_text f' fd.
Proof. by destruct f, f'. Qed.

Lemma handleInputChange_formData f v st :
  formData (handleInputChange f v st) = set_field f v (formData st).
Proof.
  unfold handleInputChange.
  destruct (errors st !! field_key f) as [msg|]; [|done].
  by destruct (String.eqb msg "").
Qed.

Lemma handleInputChange_flags f v st :
  loading (handleInputChange f v st) = loading st /\
  submitted (handleInputChange f v st) = submitted st.
Proof.
  unfold handleInputChange.
  destruct (errors st !! field_key f) as [msg|]; [|done].
  by destruct (String.eqb msg "").
Qed.

(** [handleInputChange] stores the value in its field and in no other,
    leaves [loading] and [submitted] alone, drops the message shown for
    that field and keeps the message of every other key: the other
    fields are not validated again. *)
Theorem handleInputChange_touches_one_field f v st :
  let st' := handleInputChange f v st in
  field_text f (formData st') = v /\
  (forall f', f' <> f ->
     field_text f' (formData st') = field_text f' (formData st)) /\
  loading st' = loading st /\
  submitted st' = submitted st /\
  (forall k, k <> field_key f -> errors st' !! k = errors st !! k) /\
  (errors st' !! field_key f = None \/ errors st' !! field_key f = Some "").
Proof.
  intros st'. unfold st'.
  rewrite handleInputChange_formData.
  split; [apply set_field_same|].
  split; [intros f' Hf; by apply set_field_other|].
  destruct (handleInputChange_flags f v st) as [Hl Hs].
  split; [done|]. split; [done|].
  unfold handleInputChange.
  destruct (errors st !! field_key f) as [msg|] eqn:E.
  - destruct (String.eqb_spec msg "") as [->|Hmsg]; simpl.
    + split; [done|]. by right.
    + split; [|left; apply lookup_delete_eq].
      intros k Hk. by rewrite lookup_delete_ne.
  - simpl. split; [done|]. by left.
Qed.

Lemma filter_all {A} (P : A -> Prop) `{!forall x, Decision (P x)} (l : list A) :
  Forall P l -> filter P l = l.
Proof.
  induction 1 as [|x l Hx _ IH]; [done|].
  by rewrite filter_cons_True, IH.
Qed.

Lemma Forall_digit_filter (raw : jsstring) :
  Forall (fun c => (48 <= c <= 57)%N) (filter (fun c => is_digit c = true) raw).
Proof.
  apply Forall_forall. intros c [Hc _]%list_elem_of_filter.
  by apply is_digit_range.
Qed.

Lemma mobile_issues_regex fd :
  mobile_issues (candidate_of fd) = [] <-> mobile_regex_test (mobile fd) = true.
Proof.
  unfold mobile_issues. simpl.
  destruct (mobile_regex_test (mobile fd)); split; done.
Qed.

Lemma onChange_mobile_clean raw st :
  Forall (fun c => (48 <= c <= 57)%N) (mobile (formData (onChange f_mobile raw st))) /\
  (length (mobile (formData (onChange f_mobile raw st))) <= 10)%nat.
Proof.
  unfold onChange. rewrite handleInputChange_formData. simpl. split.
  - apply Forall_take, Forall_digit_filter.
  - rewrite length_take. lia.
Qed.

(** Whatever reaches the mobile input, the text stored is the first ten
    digits of it: digits only, never longer than ten, and the text
    itself when that is already so. *)
Theorem mobile_input_keeps_ten_digits raw st :
  let m := mobile (formData (onChange f_mobile raw st)) in
  m = take 10 (filter (fun c => is_digit c = true) raw) /\
  Forall (fun c => (48 <= c <= 57)%N) m /\
  (length m <= 10)%nat /\
  (Forall (fun c => (48 <= c <= 57)%N) raw -> (length raw <= 10)%nat ->
   m = raw).
Proof.
  intros m. unfold m, onChange. rewrite handleInputChange_formData. simpl.
  split; [done|].
  destruct (onChange_mobile_clean raw st) as [Hm Hl].
  unfold onChange in Hm, Hl. rewrite handleInputChange_formData in Hm, Hl.
  split; [exact Hm|]. split; [exact Hl|].
  intros Hd Hlen. rewrite filter_all.
  - by apply take_ge.
  - eapply Forall_impl; [exact Hd|]. intros c Hc. by apply is_digit_range.
Qed.

(** The mobile number typed passes the mobile rule exactly when the
    text that reached the input holds ten digits or more, whatever else
    it holds. *)
Theorem typed_mobile_valid_iff_ten_digits raw st :
  mobile_issues (candidate_of (formData (onChange f_mobile raw st))) = [] <->
  (10 <= length (filter (fun c => is_digit c = true) raw))%nat.
Proof.
  rewrite mobile_issues_regex, mobile_regex_test_spec.
  unfold onChange. rewrite handleInputChange_formData. simpl.
  rewrite length_take. split.
  - intros [Hlen _]. lia.
  - intros Hlen. split; [lia|]. apply Forall_take, Forall_digit_filter.
Qed.

(** *** [parseInt] on what the age input stores *)

Lemma digit_cases c :
  is_digit c = true ->
  (c = 48 \/ c = 49 \/ c = 50 \/ c = 51 \/ c = 52 \/
   c = 53 \/ c = 54 \/ c = 55 \/ c = 56 \/ c = 57)%N.
Proof. rewrite is_digit_range. lia. Qed.

Lemma digit_value_decimal c :
  is_digit c = true -> digit_value 10 c = Some (Z.of_N c - 48)%Z.
Proof.
  intros Hc. unfold digit_value. rewrite Hc.
  apply is_digit_range in Hc.
  destruct (Z.ltb_spec (Z.of_N c - 48) 10); [done|lia].
Qed.

Lemma parse_digits_decimal s :
  Forall (fun c => is_digit c = true) s ->
  forall acc,
    parse_digits 10 s acc =
      match s with
      | [] => acc
      | _ => Some (foldl (fun a c => (10 * a + (Z.of_N c - 48))%Z)
                         (default 0%Z acc) s)
      end.
Proof.
  induction 1 as [|c r Hc _ IH]; intros acc; [done|].
  cbn [parse_digits]. rewrite (digit_value_decimal c Hc), IH.
  by destruct r.
Qed.

Lemma foldl_decimal_nonneg s :
  Forall (fun c => is_digit c = true) s ->
  forall acc, (0 <= acc)%Z ->
    (0 <= foldl (fun a c => (10 * a + (Z.of_N c - 48))%Z) acc s)%Z.
Proof.
  induction 1 as [|c r Hc _ IH]; intros acc Hacc; [done|].
  simpl. apply IH. apply is_digit_range in Hc. lia.
Qed.

Lemma decimal_value_nonneg s :
  Forall (fun c => is_digit c = true) s -> (0 <= decimal_value s)%Z.
Proof. intros H. by apply foldl_decimal_nonneg. Qed.

(** A non-empty string of digits is read as the number it writes: no
    sign, no whitespace and no hexadecimal prefix can be found in it. *)
Lemma parseInt_digits s :
  Forall (fun c => is_digit c = true) s -> s <> [] ->
  parseInt s = number_of_Z (decimal_value s).
Proof.
  intros Hs Hne. destruct s as [|c r]; [done|].
  pose proof (parse_digits_decimal (c :: r) Hs None) as Hp.
  cbn [default] in Hp. fold (decimal_value (c :: r)) in Hp.
  inversion Hs as [|c' r' Hc Hr]; subst.
  assert (Hnotx : forall d r', r = d :: r' -> d <> 120%N /\ d <> 88%N).
  { intros d r' ->. inversion Hr as [|d' r'' Hd _]; subst.
    apply is_digit_range in Hd. lia. }
  unfold parseInt.
  destruct (digit_cases c Hc) as [->|[->|[->|[->|[->|[->|[->|[->|[->| ->]]]]]]]]];
    cbn [trim_start is_space N.eqb Pos.eqb N.leb N.compare Pos.compare
         Pos.compare_cont orb andb];
    try (rewrite Hp, Z.mul_1_l; reflexivity).
  destruct r as [|d r'].
  - rewrite Hp, Z.mul_1_l. reflexivity.
  - destruct (Hnotx d r' eq_refl) as [H1 H2].
    destruct d as [|p]; [rewrite Hp, Z.mul_1_l; reflexivity|].
    do 7 (destruct p as [p|p|]; try (rewrite Hp, Z.mul_1_l; reflexivity));
      done.
Qed.

Lemma number_of_Z_nonneg z : (0 <= z)%Z -> at_least (number_of_Z z) 0.
Proof.
  intros Hz. unfold number_of_Z.
  destruct (Z.abs z <=? 2 ^ 53)%Z.
  - right. exists (inject_Z z). split; [done|].
    change 0%Q with (inject_Z 0). by rewrite <- Zle_Qle.
  - apply round64_ge_double; [|done].
    change 0%Q with (inject_Z 0). by rewrite <- Zle_Qle.
Qed.

(** Whatever reaches the age input, the text stored is its digits: a
    sign, a decimal point or an exponent typed is dropped.  [parseInt]
    reads that text as NaN when no digit was typed and otherwise as the
    double of the number it writes, which is that number itself up to
    2^53; the age passes its rule exactly when the number written lies
    between 18 and 100. *)
Theorem age_input_keeps_digits raw st :
  let a := age (formData (onChange f_age raw st)) in
  a = filter (fun c => is_digit c = true) raw /\
  parseInt a =
    match a with [] => NaN | _ => number_of_Z (decimal_value a) end /\
  (0 <= decimal_value a)%Z /\
  (a <> [] -> (decimal_value a <= 2 ^ 53)%Z ->
   parseInt a = Fin (inject_Z (decimal_value a))) /\
  (age_issues (candidate_of (formData (onChange f_age raw st))) = [] <->
   a <> [] /\ (18 <= decimal_value a <= 100)%Z).
Proof.
  intros a.
  assert (Ha : a = filter (fun c => is_digit c = true) raw).
  { unfold a, onChange. by rewrite handleInputChange_formData. }
  assert (Hd : Forall (fun c => is_digit c = true) a).
  { rewrite Ha. apply Forall_forall. by intros c [Hc _]%list_elem_of_filter. }
  assert (Hp : parseInt a =
               match a with [] => NaN | _ => number_of_Z (decimal_value a) end).
  { destruct a as [|c r] eqn:E; [done|]. by apply parseInt_digits. }
  pose proof (decimal_value_nonneg a Hd) as Hnn.
  split; [done|]. split; [done|]. split; [done|]. split.
  - intros Hne Hsmall. rewrite Hp. destruct a as [|c r]; [done|].
    unfold number_of_Z.
    destruct (Z.leb_spec (Z.abs (decimal_value (c :: r))) (2 ^ 53));
      [done|lia].
  - unfold age_issues, candidate_of. cbn [c_age]. fold a. rewrite Hp.
    destruct a as [|c r].
    + split; [discriminate|by intros [? _]].
    + rewrite age_accepts_number_of_Z. split; [by split|by intros [_ ?]].
Qed.

(** *** What holds of every page the user can reach *)

Lemma run_invariant (P : Page -> Prop) :
  (forall pg ev, P pg -> P (step pg ev)) ->
  forall evs pg, P pg -> P (run evs pg).
Proof.
  intros Hstep evs. induction evs as [|ev evs IH]; intros pg Hpg; [done|].
  simpl. apply IH. by apply Hstep.
Qed.

Lemma handleSubmit_begin_formData st :
  formData (handleSubmit_begin st).1.1 = formData st /\
  submitted (handleSubmit_begin st).1.1 = submitted st.
Proof. unfold handleSubmit_begin. simpl. by destruct (applySchema_parse _). Qed.

Lemma handleSubmit_resume_formData o st :
  formData (handleSubmit_resume o st).1 = formData st.
Proof. by destruct o as [d [e|]|e]. Qed.

Lemma step_formData pg ev :
  formData (ui (step pg ev)) = formData (ui pg) \/
  exists f raw, ev = ev_change f raw /\
                formData (ui (step pg ev)) = formData (onChange f raw (ui pg)).
Proof.
  destruct ev as [f raw| |o]; unfold step.
  - destruct (form_rendered (ui pg)); [right; by exists f, raw|by left].
  - left. destruct (form_rendered (ui pg) && negb (submit_disabled (ui pg)));
      [|done].
    pose proof (handleSubmit_begin_formData (ui pg)) as [H _].
    by destruct (handleSubmit_begin (ui pg)) as [[st eff] pending].
  - left. destruct (in_flight pg); [done|].
    pose proof (handleSubmit_resume_formData o (ui pg)) as H.
    by destruct (handleSubmit_resume o (ui pg)) as [st eff].
Qed.

(** On every page reached from the mounted form by typing, submitting
    and settling calls, the mobile text is at most ten digits and the
    age text is digits only; so the age handed to the schema is NaN
    when the text is empty and otherwise a number that is not negative,
    which a very long text makes infinite. *)
Theorem typed_fields_stay_clean evs :
  let fd := formData (ui (run evs initial_page)) in
  Forall (fun c => (48 <= c <= 57)%N) (mobile fd) /\
  (length (mobile fd) <= 10)%nat /\
  Forall (fun c => (48 <= c <= 57)%N) (age fd) /\
  ((age fd = [] /\ parseInt (age fd) = NaN) \/
   (age fd <> [] /\ at_least (parseInt (age fd)) 0)).
Proof.
  set (clean := fun fd : FormData =>
    Forall (fun c => (48 <= c <= 57)%N) (mobile fd) /\
    (length (mobile fd) <= 10)%nat /\
    Forall (fun c => (48 <= c <= 57)%N) (age fd)).
  assert (Hrun : clean (formData (ui (run evs initial_page)))).
  { apply (run_invariant (fun pg => clean (formData (ui pg)))).
    - intros pg ev Hpg.
      destruct (step_formData pg ev) as [->|(f & raw & -> & ->)]; [done|].
      destruct Hpg as (Hm & Hl & Ha).
      destruct (onChange_mobile_clean raw (ui pg)) as (Hm' & Hl').
      destruct f; unfold onChange in *;
        rewrite handleInputChange_formData in *; simpl in *;
        repeat split; try done.
      apply Forall_digit_filter.
    - repeat split; simpl; [constructor|lia|constructor]. }
  destruct Hrun as (Hm & Hl & Ha).
  intros fd. split; [done|]. split; [done|]. split; [done|].
  fold fd in Ha.
  assert (Hd : Forall (fun c => is_digit c = true) (age fd)).
  { eapply Forall_impl; [exact Ha|]. intros c Hc. by apply is_digit_range. }
  destruct (age fd) as [|c r] eqn:E; [by left|right].
  split; [done|]. rewrite parseInt_digits by done.
  by apply number_of_Z_nonneg, decimal_value_nonneg.
Qed.

(* ===================================================================== *)
(** ** The messages shown under the fields *)
(* ===================================================================== *)

(** The entry of a key is the message of the last issue filed under
    it. *)
Lemma collect_errors_last issues k :
  k <> "" ->
  collect_errors issues !! k =
    message <$> last (filter (fun e => head (path e) = Some k) issues).
Proof.
  intros Hk. induction issues as [|e issues IH] using rev_ind.
  - unfold collect_errors. simpl. by rewrite lookup_empty.
  - rewrite collect_errors_snoc, filter_app. unfold record_issue.
    cbn [filter list_filter]. destruct (head (path e)) as [k'|] eqn:Hh.
    + destruct (decide (Some k' = Some k)) as [[= ->]|Hne].
      * destruct (String.eqb_spec k ""); [done|].
        by rewrite lookup_insert_eq, last_snoc.
      * rewrite app_nil_r.
        destruct (String.eqb k' ""); [done|].
        rewrite lookup_insert_ne; [done|congruence].
    + destruct (decide (None = Some k)); [done|]. by rewrite app_nil_r.
Qed.

Lemma filter_key_same (l : list ZodIssue) k :
  (forall e, e ∈ l -> path e = [k]) ->
  filter (fun e => head (path e) = Some k) l = l.
Proof.
  intros H. apply filter_all, Forall_forall. intros e He.
  by rewrite (H e He).
Qed.

Lemma filter_key_other (l : list ZodIssue) k k' :
  (forall e, e ∈ l -> path e = [k']) ->
  k' <> k ->
  filter (fun e => head (path e) = Some k) l = [].
Proof.
  intros H Hk. induction l as [|e l IH]; [done|].
  rewrite filter_cons_False.
  - apply IH. intros e' He'. apply H. by right.
  - rewrite (H e) by by left. simpl. congruence.
Qed.

Lemma collect_errors_field c f :
  collect_errors (object_issues applySchema c) !! field_key f =
    message <$> last (field_issues f c).
Proof.
  rewrite collect_errors_last by apply field_key_nonempty.
  rewrite object_issues_applySchema, !filter_app.
  assert (Hn := fun e => parse_schema_path name_schema ["name"] (c_name c) e).
  assert (Hm := fun e => parse_schema_path mobile_schema ["mobile"] (c_mobile c) e).
  assert (He := fun e => parse_schema_path email_schema ["email"] (c_email c) e).
  assert (Ha := fun e => parse_schema_path age_schema ["age"] (c_age c) e).
  assert (Hq := fun e => parse_schema_path qualification_schema
                           ["qualification"] (c_qualification c) e).
  fold (name_issues c) in Hn. fold (mobile_issues c) in Hm.
  fold (email_issues c) in He. fold (age_issues c) in Ha.
  fold (qualification_issues c) in Hq.
  destruct f; cbn [field_key field_issues];
    rewrite ?(filter_key_same _ "name" Hn), ?(filter_key_same _ "mobile" Hm),
      ?(filter_key_same _ "email" He), ?(filter_key_same _ "age" Ha),
      ?(filter_key_same _ "qualification" Hq);
    rewrite ?(filter_key_other _ _ _ Hn), ?(filter_key_other _ _ _ Hm),
      ?(filter_key_other _ _ _ He), ?(filter_key_other _ _ _ Ha),
      ?(filter_key_other _ _ _ Hq) by done;
    by rewrite ?app_nil_r.
Qed.

Lemma field_issues_returned c f e :
  e ∈ field_issues f c -> e ∈ object_issues applySchema c.
Proof.
  rewrite object_issues_applySchema, !elem_of_app.
  destruct f; cbn [field_issues]; tauto.
Qed.

(** C4. When validation fails, [handleSubmit] ends without a remote
    call: the state keeps the form data and is not loading, and the only
    effects are [preventDefault] and the validation toast.  The issues
    returned are those of all five fields, not of the first one found
    wrong: every field whose rule is violated gets an entry in the
    error map, its message taken from the issues of that field, and no
    other key gets one. *)
Theorem validation_failure_handled st issues :
  applySchema_parse (candidate_of (formData st)) = ZodError issues ->
  let st' := mkState false (submitted st) (formData st) (collect_errors issues) in
  let eff := [PreventDefault; Toast validation_toast] in
  handleSubmit_begin st = (st', eff, None) /\
  (forall gateway, handleSubmit gateway st = (st', eff)) /\
  (forall fn body, FunctionsInvoke fn body ∉ eff) /\
  (forall pg, ui pg = st ->
     form_rendered st = true -> submit_disabled st = false ->
     step pg ev_submit = mkPage st' (in_flight pg) (effects pg ++ eff)) /\
  (forall e, e ∈ issues ->
     exists f, path e = [field_key f] /\
               is_Some (collect_errors issues !! field_key f)) /\
  (forall k m, collect_errors issues !! k = Some m ->
     exists e, e ∈ issues /\ path e = [k] /\ message e = m) /\
  submit_disabled st' = false /\
  form_rendered st' = form_rendered st /\
  (forall f e, e ∈ field_issues f (candidate_of (formData st)) -> e ∈ issues) /\
  (forall f, field_issues f (candidate_of (formData st)) <> [] <->
             is_Some (errors st' !! field_key f)) /\
  (forall f, errors st' !! field_key f =
             message <$> last (field_issues f (candidate_of (formData st)))).
Proof.
  intros Hparse st' eff.
  pose proof (handleSubmit_begin_invalid st issues Hparse) as Hb.
  apply applySchema_parse_error_inv in Hparse as [Hiss _].
  split; [done|].
  split; [|split; [|split; [|split; [|split; [|split; [|split]]]]]].
  - intros gateway. unfold handleSubmit. by rewrite Hb.
  - intros fn body Hin. unfold eff in Hin.
    rewrite !elem_of_cons, elem_of_nil in Hin.
    by destruct Hin as [?|[?|?]].
  - intros pg <- Hform Hen. unfold step. simpl in Hform, Hen.
    rewrite Hform, Hen, Hb. simpl. by rewrite app_nil_r.
  - intros e He. rewrite Hiss in He.
    destruct (object_issues_path _ e He) as [f Hf].
    exists f. split; [done|]. rewrite <- Hiss in He.
    apply (collect_errors_is_Some issues e); [done| |apply field_key_nonempty].
    by rewrite Hf.
  - intros k m Hk.
    apply collect_errors_lookup_Some in Hk as (e & He & Hhd & Hm).
    exists e. split; [done|]. split; [|done].
    rewrite Hiss in He. destruct (object_issues_path _ e He) as [f Hf].
    rewrite Hf in Hhd |- *. simpl in Hhd. congruence.
  - done.
  - done.
  - unfold st'. cbn [errors]. rewrite Hiss. split; [|split].
    + intros f e. apply field_issues_returned.
    + intros f. rewrite collect_errors_field, fmap_is_Some.
      symmetry. apply last_is_Some.
    + intros f. apply collect_errors_field.
Qed.

(** A field with several issues shows the message of the last of them;
    a field without issue shows none, whatever the other fields did;
    and no key other than the five field names ever gets a message. *)
Theorem field_shows_last_issue c :
  (forall f,
     collect_errors (object_issues applySchema c) !! field_key f =
       message <$> last (field_issues f c)) /\
  (forall k, (forall f, k <> field_key f) ->
     collect_errors (object_issues applySchema c) !! k = None).
Proof.
  split; [intros f; apply collect_errors_field|].
  intros k Hk.
  destruct (collect_errors (object_issues applySchema c) !! k) as [m|] eqn:E;
    [exfalso|done].
  apply collect_errors_lookup_Some in E as (e & He & Hhd & _).
  destruct (object_issues_path c e He) as [f Hf].
  rewrite Hf in Hhd. simpl in Hhd. apply (Hk f). congruence.
Qed.

(** The name has two checks; an empty name fails both and the pattern's
    message overwrites the first: "Name is required" is returned by
    [parse] for the empty name and is never the message shown. *)
Theorem name_required_never_shown fd :
  let issues := object_issues applySchema (candidate_of fd) in
  collect_errors issues !! "name" =
    (if name_regex_test (name fd) then None
     else Some "Name must contain only letters and spaces") /\
  collect_errors issues !! "name" <> Some "Name is required" /\
  (name fd = [] -> mkIssue too_small ["name"] "Name is required" ∈ issues).
Proof.
  intros issues.
  assert (H : collect_errors issues !! "name" =
    (if name_regex_test (name fd) then None
     else Some "Name must contain only letters and spaces")).
  { unfold issues. change "name" with (field_key f_name).
    rewrite collect_errors_field. cbn [field_issues]. unfold name_issues.
    cbn [candidate_of c_name name_schema parse_schema flat_map string_check].
    destruct (name fd) as [|ch r]; [done|].
    cbn [length Nat.ltb Nat.leb].
    by destruct (name_regex_test (ch :: r)). }
  split; [exact H|]. split.
  - rewrite H. by destruct (name_regex_test (name fd)).
  - intros Hn. unfold issues. rewrite object_issues_applySchema.
    apply elem_of_app. left. unfold name_issues. simpl. rewrite Hn. by left.
Qed.

(** The message shown under the age: zod's own type message when the
    text does not start with a number (the empty text as well), the
    message of the bound missed otherwise, an infinite age missing the
    bound on its side, and none from 18 to 100. *)
Theorem age_message_shown fd :
  collect_errors (object_issues applySchema (candidate_of fd)) !! "age" =
    match parseInt (age fd) with
    | NaN => Some "Expected number, received nan"
    | Infinity true => Some "Age must be at least 18"
    | Infinity false => Some "Age must be less than 100"
    | Fin q =>
        if negb (Qle_bool 18 q) then Some "Age must be at least 18"
        else if negb (Qle_bool q 100) then Some "Age must be less than 100"
        else None
    end.
Proof.
  destruct num_values as (_ & N18 & N100 & _).
  change "age" with (field_key f_age).
  rewrite collect_errors_field. cbn [field_issues]. unfold age_issues.
  cbn [candidate_of c_age age_schema parse_schema].
  destruct (parseInt (age fd)) as [|[|]|q]; [done| | |];
    cbn [flat_map number_check]; rewrite N18, N100; [done|done|].
  unfold js_gt, js_lt.
  destruct (Qle_bool 18 q) eqn:E1, (Qle_bool q 100) eqn:E2; try done.
  exfalso.
  assert (~ (18 <= q)%Q) as H1.
  { intros H%Qle_bool_iff. congruence. }
  assert (~ (q <= 100)%Q) as H2.
  { intros H%Qle_bool_iff. congruence. }
  apply Qnot_le_lt in H1, H2. lra.
Qed.

Lemma handleSubmit_begin_errors st :
  errors (handleSubmit_begin st).1.1 =
    collect_errors (object_issues applySchema (candidate_of (formData st))).
Proof.
  unfold handleSubmit_begin. cbn [setErrors formData].
  destruct (applySchema_parse_cases (candidate_of (formData st)))
    as [[E ->]|[E ->]]; by rewrite ?E.
Qed.

(** After [handleSubmit] has validated the form, the fields that carry
    a message are exactly the fields with an issue, every key of the
    map is one of the five fields, and the map is empty exactly when
    the form validated: nothing is left of the messages shown before. *)
Theorem errors_match_issues st :
  let st' := (handleSubmit_begin st).1.1 in
  let c := candidate_of (formData st) in
  (forall f, is_Some (errors st' !! field_key f) <-> field_issues f c <> []) /\
  (forall k, is_Some (errors st' !! k) -> exists f, k = field_key f) /\
  (errors st' = ∅ <-> applySchema_parse c = ParseOk c).
Proof.
  intros st' c. unfold st'. rewrite handleSubmit_begin_errors. fold c.
  split; [|split].
  - intros f. rewrite collect_errors_field, fmap_is_Some. apply last_is_Some.
  - intros k [m Hm].
    apply collect_errors_lookup_Some in Hm as (e & He & Hk & _).
    destruct (object_issues_path c e He) as [f Hf]. exists f.
    rewrite Hf in Hk. simpl in Hk. congruence.
  - destruct (applySchema_parse_cases c) as [[E ->]|[E ->]].
    + rewrite E. by split.
    + split; [|done]. intros Hempty. exfalso.
      destruct (object_issues applySchema c) as [|e l] eqn:El; [done|].
      assert (He : e ∈ object_issues applySchema c) by (rewrite El; by left).
      destruct (object_issues_path c e He) as [f Hf].
      destruct (collect_errors_is_Some (object_issues applySchema c) e
                  (field_key f) He) as [m Hm];
        [by rewrite Hf|apply field_key_nonempty|].
      rewrite El, Hempty, lookup_empty in Hm. done.
Qed.

(* ===================================================================== *)
(** ** The life of a page *)
(* ===================================================================== *)

Lemma onChange_flags f raw st :
  loading (onChange f raw st) = loading st /\
  submitted (onChange f raw st) = submitted st.
Proof. destruct f; apply handleInputChange_flags. Qed.

Lemma timers_app a b : timers (a ++ b) = timers a ++ timers b.
Proof. apply flat_map_app. Qed.

Lemma session_writes_app a b :
  session_writes (a ++ b) = session_writes a ++ session_writes b.
Proof. apply flat_map_app. Qed.

Lemma step_flight_matches_loading pg ev :
  flight_matches_loading pg -> flight_matches_loading (step pg ev).
Proof.
  intros Hinv. pose proof Hinv as [Hfl Hsub].
  destruct ev as [f raw| |o]; unfold step.
  - destruct (form_rendered (ui pg)); [|exact Hinv].
    destruct (onChange_flags f raw (ui pg)) as [Hl Hs].
    unfold flight_matches_loading. cbn [ui in_flight]. by rewrite Hl, Hs.
  - unfold form_rendered, submit_disabled.
    destruct (submitted (ui pg)) eqn:Hs; [exact Hinv|].
    destruct (loading (ui pg)) eqn:Hl; [exact Hinv|]. cbn [negb andb].
    destruct Hfl as [[Hnil _]|[_ ?]]; [|congruence].
    unfold handleSubmit_begin.
    destruct (applySchema_parse _) as [data|errs];
      unfold flight_matches_loading; cbn; rewrite Hnil, ?Hs.
    + split; [right; split; [by exists data|done]|done].
    + split; [by left|done].
  - destruct (in_flight pg) as [|b rest] eqn:Hin; [exact Hinv|].
    destruct Hfl as [[? _]|[[body Hb] _]]; [done|].
    injection Hb as -> ->.
    destruct (handleSubmit_resume o (ui pg)) as [st eff] eqn:Hr.
    assert (loading st = false)
      by (destruct o as [d [e|]|e]; by injection Hr as <- _).
    split; [by left|done].
Qed.

Lemma run_flight_matches_loading evs :
  flight_matches_loading (run evs initial_page).
Proof.
  apply run_invariant; [apply step_flight_matches_loading|].
  split; [by left|done].
Qed.

(** On every page reached from the mounted form the submit button is
    disabled exactly while a call is in flight; and once the
    confirmation screen is shown no call is left in flight. *)
Theorem disabled_exactly_while_in_flight evs :
  let pg := run evs initial_page in
  (submit_disabled (ui pg) = true <-> in_flight pg <> []) /\
  (submitted (ui pg) = true -> in_flight pg = []).
Proof.
  intros pg. destruct (run_flight_matches_loading evs) as [Hfl Hsub].
  fold pg in Hfl, Hsub. split; [|done]. unfold submit_disabled.
  destruct Hfl as [[-> ->]|[[body ->] ->]]; split; done.
Qed.

Lemma step_confirmed_once pg ev :
  flight_matches_loading pg /\ confirmed_once pg ->
  flight_matches_loading (step pg ev) /\ confirmed_once (step pg ev).
Proof.
  intros [Hfl [Ht Hw]]. split; [by apply step_flight_matches_loading|].
  destruct Hfl as [_ Hsub]. unfold confirmed_once.
  destruct ev as [f raw| |o]; unfold step.
  - destruct (form_rendered (ui pg)); [|done].
    destruct (onChange_flags f raw (ui pg)) as [_ Hs]. simpl. by rewrite Hs.
  - unfold form_rendered.
    destruct (submitted (ui pg)) eqn:Hs; simpl; [by rewrite Hs|].
    destruct (negb (submit_disabled (ui pg))); [|by rewrite Hs].
    unfold handleSubmit_begin.
    destruct (applySchema_parse _) as [data|errs]; simpl;
      rewrite timers_app, session_writes_app, Ht, Hw, Hs; done.
  - destruct (in_flight pg) as [|b rest] eqn:Hin; [done|].
    destruct (submitted (ui pg)) eqn:Hs; [by specialize (Hsub eq_refl)|].
    destruct o as [d [e|]|e]; simpl;
      rewrite timers_app, session_writes_app, Ht, Hw, ?Hs; done.
Qed.

(** Whatever the user does and however the calls settle, the page sets
    its timer and writes the session flag at most once, and has done
    both exactly when it shows the confirmation screen: the single timer
    is the one of 5000 ms for [navigate(-1)], the single write is
    [submission_success = true]. *)
Theorem one_timer_one_flag evs :
  let pg := run evs initial_page in
  timers (effects pg) =
    (if submitted (ui pg) then [(cb_navigate (-1), 5000%Z)] else []) /\
  session_writes (effects pg) =
    (if submitted (ui pg) then [("submission_success", "true")] else []).
Proof.
  intros pg.
  assert (H : flight_matches_loading pg /\ confirmed_once pg).
  { apply (run_invariant
             (fun pg => flight_matches_loading pg /\ confirmed_once pg)).
    - apply step_confirmed_once.
    - split; [split; [by left|done]|done]. }
  destruct H as [_ [Ht Hw]]. by split.
Qed.

Lemma step_after_confirmation pg ev :
  submitted (ui pg) = true -> in_flight pg = [] -> step pg ev = pg.
Proof.
  intros Hs Hin. destruct ev as [f raw| |o]; unfold step, form_rendered.
  - by rewrite Hs.
  - by rewrite Hs.
  - by rewrite Hin.
Qed.

(** Once the confirmation screen is shown the page is final: no typing,
    no submit and no settling call changes its state or adds an effect. *)
Theorem confirmation_is_final evs evs' :
  submitted (ui (run evs initial_page)) = true ->
  run (evs ++ evs') initial_page = run evs initial_page.
Proof.
  intros Hs. unfold run. rewrite foldl_app. fold (run evs initial_page).
  destruct (run_flight_matches_loading evs) as [_ Hsub].
  specialize (Hsub Hs). revert Hs Hsub.
  generalize (run evs initial_page) as pg. intros pg Hs Hin.
  induction evs' as [|ev evs' IH]; [done|].
  simpl. by rewrite (step_after_confirmation pg ev Hs Hin).
Qed.

Lemma mobile_schema_accepts v :
  parse_schema mobile_schema ["mobile"] v = [] <->
  exists s, v = VString s /\ length s = 10%nat /\
            Forall (fun c => (48 <= c <= 57)%N) s.
Proof.
  split.
  - destruct v as [| | | |s]; simpl; try discriminate.
    destruct (mobile_regex_test s) eqn:E; [|discriminate].
    intros _. exists s. split; [done|]. by apply mobile_regex_test_spec.
  - intros (s & -> & Hs). simpl.
    apply mobile_regex_test_spec in Hs. by rewrite Hs.
Qed.

Lemma step_sends_valid_only pg ev :
  sends_valid_only (effects pg) -> sends_valid_only (effects (step pg ev)).
Proof.
  intros Hpg. destruct ev as [f raw| |o]; unfold step.
  - by destruct (form_rendered (ui pg)).
  - destruct (form_rendered (ui pg) && negb (submit_disabled (ui pg))); [|done].
    unfold handleSubmit_begin.
    destruct (applySchema_parse _) as [data|errs] eqn:E; simpl;
      intros fn body [Hin|Hin]%elem_of_app; try (by apply Hpg);
      rewrite !elem_of_cons, elem_of_nil in Hin;
      destruct Hin as [?|[Hin|?]]; try done.
    injection Hin as -> ->. split; [done|].
    apply applySchema_parse_ok_inv in E as [-> E].
    split; [by apply applySchema_parse_ok|by eexists].
  - destruct (in_flight pg); [done|].
    destruct o as [d [e|]|e]; simpl;
      intros fn body [Hin|Hin]%elem_of_app; try (by apply Hpg);
      rewrite !elem_of_cons, elem_of_nil in Hin;
      by destruct Hin as [?|[?|?]].
Qed.

(** Every call the page makes is to ["submit-application"] and carries
    a record that passes [applySchema]: its age is a whole number from
    18 to 100 and its mobile a string of ten digits.  No record that
    fails validation is ever sent. *)
Theorem only_valid_records_sent evs fn body :
  FunctionsInvoke fn body ∈ effects (run evs initial_page) ->
  fn = "submit-application" /\
  applySchema_parse body = ParseOk body /\
  (exists z, c_age body = VNumber (Fin (inject_Z z)) /\ (18 <= z <= 100)%Z) /\
  (exists m, c_mobile body = VString m /\ length m = 10%nat /\
             Forall (fun c => (48 <= c <= 57)%N) m).
Proof.
  intros Hin.
  assert (Hinv : sends_valid_only (effects (run evs initial_page))).
  { apply (run_invariant (fun pg => sends_valid_only (effects pg))).
    - apply step_sends_valid_only.
    - intros fn' body' H. by apply elem_of_nil in H. }
  destruct (Hinv fn body Hin) as (Hfn & Hok & fd & ->).
  split; [done|]. split; [done|].
  apply applySchema_parse_ok_inv in Hok as [_ Hnil].
  rewrite object_issues_applySchema in Hnil.
  apply app_eq_nil in Hnil as [_ Hnil].
  apply app_eq_nil in Hnil as [Hm Hnil].
  apply app_eq_nil in Hnil as [_ Hnil].
  apply app_eq_nil in Hnil as [Ha _].
  split; [by apply age_of_form_accepted|by apply mobile_schema_accepts].
Qed.

(** After a failed call the same form can be sent again at once: the
    page is editable, a second submit invokes the gateway with the same
    record, and nothing was retried in between. *)
Theorem resubmit_after_failure st data o err effs :
  submitted st = false ->
  loading st = false ->
  applySchema_parse (candidate_of (formData st)) = ParseOk data ->
  gateway_failed o err ->
  let call := [PreventDefault; FunctionsInvoke "submit-application" data] in
  run [ev_submit; ev_settle o] (mkPage st [] effs) =
    mkPage (mkState false false (formData st) ∅) []
           (effs ++ call ++ [ConsoleError "Submission error:" err;
                             Toast submission_failed_toast]) /\
  run [ev_submit; ev_settle o; ev_submit] (mkPage st [] effs) =
    mkPage (mkState true false (formData st) ∅) [data]
           (effs ++ call ++ [ConsoleError "Submission error:" err;
                             Toast submission_failed_toast] ++ call).
Proof.
  intros Hs Hl Hparse Hfail call.
  assert (H1 : step (mkPage st [] effs) ev_submit =
    mkPage (mkState true false (formData st) ∅) [data] (effs ++ call)).
  { unfold step, form_rendered, submit_disabled. cbn [ui in_flight effects].
    rewrite Hs, Hl. simpl andb. cbv iota.
    rewrite (handleSubmit_begin_valid st data Hparse), Hs. done. }
  assert (H2 : step (mkPage (mkState true false (formData st) ∅) [data]
                            (effs ++ call)) (ev_settle o) =
    mkPage (mkState false false (formData st) ∅) []
           (effs ++ call ++ [ConsoleError "Submission error:" err;
                             Toast submission_failed_toast])).
  { unfold step. cbn [ui in_flight effects].
    destruct Hfail as [[d ->] | ->]; simpl; by rewrite <- app_assoc. }
  assert (H3 : step (mkPage (mkState false false (formData st) ∅) []
           (effs ++ call ++ [ConsoleError "Submission error:" err;
                             Toast submission_failed_toast])) ev_submit =
    mkPage (mkState true false (formData st) ∅) [data]
           (effs ++ call ++ [ConsoleError "Submission error:" err;
                             Toast submission_failed_toast] ++ call)).
  { unfold step, form_rendered, submit_disabled. cbn [ui in_flight effects submitted loading].
    simpl andb. cbv iota.
    rewrite (handleSubmit_begin_valid
               (mkState false false (formData st) ∅) data Hparse).
    simpl. by rewrite <- !app_assoc. }
  unfold run. cbn [foldl]. rewrite H1, H2. split; [done|]. by rewrite H3.
Qed.
(** *** Required fields *)

Hypothesis emailRegex_rejects_empty : emailRegex_test [] = false.

(** C5. Whichever of the five fields is missing or empty, validation
    fails and the descriptions returned include one for that field; so
    it is for the record the form builds when the text of the field is
    empty, the age being [parseInt] of the empty text, which is NaN. *)
Theorem required_field_reported f :
  (forall c, missing_or_empty (get_key c (field_key f)) ->
             reports (field_key f) (applySchema_parse c)) /\
  (forall fd, field_text f fd = [] ->
              reports (field_key f) (applySchema_parse (candidate_of fd))) /\
  parseInt [] = NaN.
Proof.
  split; [|split; [|done]].
  - intros c Hv.
    destruct f; simpl in Hv |- *;
      [ apply (failing_key_reported c "name" name_schema)
      | apply (failing_key_reported c "mobile" mobile_schema)
      | apply (failing_key_reported c "email" email_schema)
      | apply (failing_key_reported c "age" age_schema)
      | apply (failing_key_reported c "qualification" qualification_schema) ];
      try (unfold applySchema; set_solver);
      simpl; destruct Hv as [-> | ->]; simpl;
      rewrite ?emailRegex_rejects_empty; done.
  - intros fd Hv.
    destruct f; simpl in Hv |- *;
      [ apply (failing_key_reported _ "name" name_schema)
      | apply (failing_key_reported _ "mobile" mobile_schema)
      | apply (failing_key_reported _ "email" email_schema)
      | apply (failing_key_reported _ "age" age_schema)
      | apply (failing_key_reported _ "qualification" qualification_schema) ];
      try (unfold applySchema; set_solver);
      simpl; rewrite Hv; simpl;
      rewrite ?emailRegex_rejects_empty; done.
Qed.

End ApplyPage.

(* ===================================================================== *)
(** ** The ticker *)
(* ===================================================================== *)

Lemma perturb_eq item g :
  perturb item g =
    (mkMarketData (index item)
       (js_add (value item)
          (js_mul (js_sub (Fin (draws g (taken g))) (num 0.5)) (num 50)))
       (js_add (change item)
          (js_mul (js_sub (Fin (draws g (S (taken g)))) (num 0.5)) (num 10)))
       (js_add (changePercent item)
          (js_mul (js_sub (Fin (draws g (S (S (taken g))))) (num 0.5))
                  (num 0.2))),
     mkRng (draws g) (3 + taken g)).
Proof. reflexivity. Qed.

(** The item at position [i] is perturbed with the three draws that
    follow the [3 * i] draws spent on the items before it. *)
Lemma tick_lookup prev : forall g i item,
  prev !! i = Some item ->
  (tick prev g).1 !! i =
    Some (perturb item (mkRng (draws g) (3 * i + taken g))).1.
Proof.
  induction prev as [|item0 rest IH]; intros [d t] i item Hi; [done|].
  cbn [tick]. rewrite perturb_eq.
  destruct (tick rest _) as [rest' g2] eqn:Hrest.
  destruct i as [|i].
  - injection Hi as ->. reflexivity.
  - change (rest !! i = Some item) in Hi.
    specialize (IH (mkRng d (3 + t)) i item Hi).
    cbn [draws taken] in IH, Hrest |- *. rewrite Hrest in IH.
    replace (3 * S i + t)%nat with (3 * i + (3 + t))%nat by lia.
    exact IH.
Qed.

Lemma tick_length prev : forall g, length (tick prev g).1 = length prev.
Proof.
  induction prev as [|item rest IH]; intros g; [done|].
  cbn [tick]. rewrite perturb_eq.
  specialize (IH (mkRng (draws g) (3 + taken g))).
  destruct (tick rest _). simpl in *. by rewrite IH.
Qed.

Lemma indicator_icon item :
  icon (indicator item) =
    if js_ge (change item) (num 0) then TrendingUp else TrendingDown.
Proof. unfold indicator. by destruct (js_ge (change item) (num 0)). Qed.

Section TickerSteps.

Local Open Scope Q_scope.

Lemma icon_of_at_least a : at_least a 0 -> js_ge a (num 0) = true.
Proof.
  destruct num_values as (N0 & _). rewrite N0.
  intros [->|(q & -> & Hq)]; [done|].
  unfold js_ge, js_lt. apply Qle_bool_iff in Hq. by rewrite Hq.
Qed.

Lemma icon_of_negative a b : b < 0 -> at_most a b -> js_ge a (num 0) = false.
Proof.
  destruct num_values as (N0 & _). rewrite N0.
  intros Hb [->|(q & -> & Hq)]; [done|].
  unfold js_ge, js_lt. destruct (Qle_bool 0 q) eqn:E; [|done].
  apply Qle_bool_iff in E. lra.
Qed.

(** The delta [(r - 0.5) * k] of a draw [r]: finite, at most half of
    [k] in size, and of the sign of [r - 0.5]. *)
Lemma delta_bounded r k B :
  0 <= r < 1 -> 0 <= k -> (1 # 2) * k <= B -> is_double B = true ->
  exists d,
    js_mul (js_sub (Fin r) (Fin (1 # 2))) (Fin k) = Fin d /\
    Qabs d <= B /\
    (r <= 1 # 2 -> d <= 0) /\
    (1 # 2 <= r -> 0 <= d).
Proof.
  intros [Hr0 Hr1] Hk HB Hd.
  assert (Hhalf : is_double (1 # 2) = true) by (by vm_compute).
  assert (Hzero : is_double 0 = true) by (by vm_compute).
  unfold js_sub, js_neg, js_add.
  destruct (round64_bounded (r + - (1 # 2)) (1 # 2)) as (d1 & E1 & H1);
    [apply Qabs_Qle_condition; split; lra|done|].
  apply Qabs_Qle_condition in H1 as [H1a H1b].
  assert (S1 : r <= 1 # 2 -> d1 <= 0).
  { intros Hle.
    destruct (round64_le_double (r + - (1 # 2)) 0) as [E|(x & E & Hx)];
      [lra|done|congruence|]. rewrite E1 in E. by injection E as ->. }
  assert (S2 : 1 # 2 <= r -> 0 <= d1).
  { intros Hle.
    destruct (round64_ge_double (r + - (1 # 2)) 0) as [E|(x & E & Hx)];
      [lra|done|congruence|]. rewrite E1 in E. by injection E as ->. }
  rewrite E1. unfold js_mul.
  assert (Hp : - B <= d1 * k <= B).
  { assert (0 <= (d1 + (1 # 2)) * k) by (apply Qmult_le_0_compat; lra).
    assert (0 <= ((1 # 2) - d1) * k) by (apply Qmult_le_0_compat; lra).
    split; lra. }
  destruct (round64_bounded (d1 * k) B) as (d & E & H);
    [by apply Qabs_Qle_condition|done|].
  exists d. split; [done|]. split; [done|]. split.
  - intros Hle. specialize (S1 Hle).
    assert (0 <= (- d1) * k) by (apply Qmult_le_0_compat; lra).
    destruct (round64_le_double (d1 * k) 0) as [E'|(x & E' & Hx)];
      [lra|done|congruence|]. rewrite E in E'. by injection E' as ->.
  - intros Hle. specialize (S2 Hle).
    assert (0 <= d1 * k) by (apply Qmult_le_0_compat; lra).
    destruct (round64_ge_double (d1 * k) 0) as [E'|(x & E' & Hx)];
      [lra|done|congruence|]. rewrite E in E'. by injection E' as ->.
Qed.

(** A field moved by such a delta: by at most [B], up to the rounding
    of the sum. *)
Lemma field_moved q r k B :
  Qabs q <= pow2 1000 ->
  0 <= r < 1 -> 0 <= k -> (1 # 2) * k <= B -> B <= 25 ->
  is_double B = true ->
  moved_within B (Fin q)
    (js_add (Fin q) (js_mul (js_sub (Fin r) (Fin (1 # 2))) (Fin k))).
Proof.
  intros Hq Hr Hk HB HB25 Hd.
  destruct (delta_bounded r k B Hr Hk HB Hd) as (d & -> & Hdb & _).
  unfold js_add.
  apply Qabs_Qle_condition in Hdb as [Hd1 Hd2].
  pose proof (Qabs_nonneg q) as Ha0.
  assert (Ha : - Qabs q <= q <= Qabs q)
    by (apply Qabs_Qle_condition, Qle_refl).
  assert (Hsum : Qabs (q + d) <= Qabs q + B)
    by (apply Qabs_Qle_condition; split; lra).
  assert (Hbig : pow2 1000 + 25 <= pow2 1023)
    by (apply Qle_bool_iff; by vm_compute).
  destruct (round64_near (q + d)) as (q' & E & Hn); [lra|].
  exists q, q'. split; [done|]. split; [done|].
  assert (Hu : pow2 (-53) * Qabs (q + d) <= pow2 (-53) * (Qabs q + B))
    by (apply Qmult_le_l; [apply pow2_pos|exact Hsum]).
  apply Qabs_Qle_condition in Hn as [Hn1 Hn2].
  set (U := pow2 (-53) * (Qabs q + B)) in *.
  set (V := pow2 (-53) * Qabs (q + d)) in *.
  apply Qabs_Qle_condition. split; lra.
Qed.

End TickerSteps.

(** C9. The timer is set to 10000 ms.  One tick keeps the number and
    the names of the indices.  With every draw of [Math.random] in
    [0, 1) and the three numbers of an index finite and below 2^1000 in
    size, its value becomes [value + (r1 - 0.5) * 50], its change
    [change + (r2 - 0.5) * 10] and its percent change
    [changePercent + (r3 - 0.5) * 0.2] in double arithmetic, for three
    successive draws of its own; each delta is at most 25, 5 and half
    the double of 0.2 in size, so each number moves by at most that
    much, up to the rounding of the sum.  The icon shown is the upward
    one when the new change is at least 0 and the downward one when it
    is negative. *)
Theorem tick_perturbation_bounded prev g i item :
  unit_draws g ->
  prev !! i = Some item ->
  finite_below (pow2 1000) (value item) ->
  finite_below (pow2 1000) (change item) ->
  finite_below (pow2 1000) (changePercent item) ->
  tick_interval_ms = 10000%Z /\
  length (tick prev g).1 = length prev /\
  exists item',
    (tick prev g).1 !! i = Some item' /\
    index item' = index item /\
    (let n := (3 * i + taken g)%nat in
     value item' =
       js_add (value item)
         (js_mul (js_sub (Fin (draws g n)) (num 0.5)) (num 50)) /\
     change item' =
       js_add (change item)
         (js_mul (js_sub (Fin (draws g (S n))) (num 0.5)) (num 10)) /\
     changePercent item' =
       js_add (changePercent item)
         (js_mul (js_sub (Fin (draws g (S (S n)))) (num 0.5)) (num 0.2))) /\
    moved_within 25 (value item) (value item') /\
    moved_within 5 (change item) (change item') /\
    moved_within tenth (changePercent item) (changePercent item') /\
    (forall c', change item' = Fin c' ->
       ((0 <= c')%Q -> icon (indicator item') = TrendingUp) /\
       ((c' < 0)%Q -> icon (indicator item') = TrendingDown)).
Proof.
  intros Hg Hi (v & Ev & Hv) (c & Ec & Hc) (p & Ep & Hp).
  split; [done|]. split; [apply tick_length|].
  eexists. split; [by apply tick_lookup|].
  rewrite perturb_eq. cbn [fst index value change changePercent draws taken].
  set (n := (3 * i + taken g)%nat).
  split; [done|]. split; [done|].
  destruct num_values as (N0 & _ & _ & Nh & N50 & N10 & N02).
  rewrite Ev, Ec, Ep, Nh, N50, N10, N02.
  split; [|split; [|split]].
  - apply field_moved;
      [exact Hv|apply Hg|by apply Qle_bool_iff|by apply Qle_bool_iff
      |by apply Qle_bool_iff|by vm_compute].
  - apply field_moved;
      [exact Hc|apply Hg|by apply Qle_bool_iff|by apply Qle_bool_iff
      |by apply Qle_bool_iff|by vm_compute].
  - apply field_moved;
      [exact Hp|apply Hg|by apply Qle_bool_iff|by apply Qle_bool_iff
      |by apply Qle_bool_iff|by vm_compute].
  - intros c' Hc'. rewrite indicator_icon. cbn [change]. rewrite Hc', N0.
    unfold js_ge, js_lt. rewrite negb_involutive. split.
    + intros Hpos. apply Qle_bool_iff in Hpos. by rewrite Hpos.
    + intros Hneg. destruct (Qle_bool 0 c') eqn:E; [|done].
      apply Qle_bool_iff in E. lra.
Qed.

(** *** More of the ticker *)

Lemma tick_rng prev : forall g,
  (tick prev g).2 = mkRng (draws g) (3 * length prev + taken g).
Proof.
  induction prev as [|item rest IH]; intros [d t]; [done|].
  cbn [tick]. rewrite perturb_eq.
  specialize (IH (mkRng d (3 + t))).
  destruct (tick rest _) as [rest' g2]. cbn [snd draws taken] in IH |- *.
  rewrite IH. f_equal. cbn [length]. lia.
Qed.

Lemma tick_index prev : forall g, index <$> (tick prev g).1 = index <$> prev.
Proof.
  induction prev as [|item rest IH]; intros g; [done|].
  cbn [tick]. rewrite perturb_eq.
  specialize (IH (mkRng (draws g) (3 + taken g))).
  destruct (tick rest _) as [rest' g2]. cbn [fst] in IH |- *.
  cbn [fmap list_fmap index]. f_equal. exact IH.
Qed.

(** One tick calls [Math.random] three times for each index and no
    more, and leaves the names of the indices and their order as they
    were. *)
Theorem tick_takes_three_draws_per_index prev g :
  draws (tick prev g).2 = draws g /\
  taken (tick prev g).2 = (taken g + 3 * length prev)%nat /\
  index <$> (tick prev g).1 = index <$> prev.
Proof.
  rewrite tick_rng. cbn [draws taken].
  split; [done|]. split; [lia|apply tick_index].
Qed.

(** *** More ticks *)

Section MoreTicks.

Local Open Scope Q_scope.

(** Every whole number up to [2^53] in size is a double. *)
Lemma is_double_Z z : (Z.abs z <= 2 ^ 53)%Z -> is_double (inject_Z z) = true.
Proof.
  assert (Hpos : forall z, (0 < z <= 2 ^ 53)%Z -> is_double (inject_Z z) = true).
  { clear z. intros z [Hz0 Hz1].
    destruct (Z.eq_dec z (2 ^ 53)%Z) as [->|Hne]; [by vm_compute|].
    assert (Hx0 : 0 < inject_Z z) by (rewrite (Zlt_Qlt 0 z) in Hz0; exact Hz0).
    rewrite is_double_pos by exact Hx0.
    destruct (binade_spec (inject_Z z) Hx0) as [Hb1 Hb2].
    assert (Hb52 : (binade (inject_Z z) <= 52)%Z).
    { assert (Hlt : inject_Z z < pow2 53).
      { rewrite pow2_Z by lia. rewrite <- Zlt_Qlt. lia. }
      assert (H : pow2 (binade (inject_Z z)) < pow2 53) by lra.
      apply pow2_lt_inv in H. lia. }
    assert (Hb0 : (0 <= binade (inject_Z z))%Z).
    { assert (Hge : pow2 0 <= inject_Z z).
      { rewrite pow2_Z by lia. rewrite <- Zle_Qle. simpl. lia. }
      assert (H : pow2 0 < pow2 (binade (inject_Z z) + 1)) by lra.
      apply pow2_lt_inv in H. lia. }
    set (k := quantum (inject_Z z)).
    assert (Hk : (k = binade (inject_Z z) - 52)%Z) by (unfold k, quantum; lia).
    assert (Hk0 : (k <= 0)%Z) by lia.
    assert (Hinv : / pow2 k == pow2 (- k)).
    { unfold pow2. by rewrite Qpower_opp. }
    assert (Hdiv : inject_Z z / pow2 k == inject_Z (z * 2 ^ (- k))).
    { unfold Qdiv. rewrite Hinv, pow2_Z by lia. by rewrite <- inject_Z_mult. }
    apply andb_true_iff. split.
    - unfold on_grid. fold k. apply Qeq_bool_iff.
      rewrite Hdiv, Qfloor_Z, inject_Z_mult, <- pow2_Z by lia.
      rewrite <- Qmult_assoc, <- pow2_add.
      replace (- k + k)%Z with 0%Z by lia. change (pow2 0) with 1. ring.
    - destruct (Qle_bool (pow2 1024) (inject_Z z)) eqn:E; [|done].
      apply Qle_bool_iff in E.
      assert (Hle : pow2 53 <= pow2 1024) by (apply pow2_le; lia).
      assert (Hlt : inject_Z z < pow2 53).
      { rewrite pow2_Z by lia. rewrite <- Zlt_Qlt. lia. }
      lra. }
  intros Hz. destruct (Z.lt_trichotomy z 0) as [Hn|[->|Hp]].
  - rewrite <- is_double_opp, <- inject_Z_opp. apply Hpos. lia.
  - done.
  - apply Hpos. lia.
Qed.

(** One field after one tick: finite, and larger by at most [D]. *)
Lemma field_step q r k (B D : Z) :
  Qabs q <= inject_Z B ->
  0 <= r < 1 -> 0 <= k -> (1 # 2) * k <= inject_Z D ->
  (0 <= B)%Z -> (0 <= D)%Z -> (B + D <= 2 ^ 53)%Z ->
  finite_below (inject_Z (B + D))
    (js_add (Fin q) (js_mul (js_sub (Fin r) (Fin (1 # 2))) (Fin k))).
Proof.
  intros Hq Hr Hk HD HB0 HD0 Hsum.
  destruct (delta_bounded r k (inject_Z D) Hr Hk HD) as (d & -> & Hd & _);
    [apply is_double_Z; lia|].
  unfold js_add.
  apply Qabs_Qle_condition in Hq as [Hq1 Hq2].
  apply Qabs_Qle_condition in Hd as [Hd1 Hd2].
  destruct (round64_bounded (q + d) (inject_Z (B + D))) as (q' & E & Hq').
  - rewrite inject_Z_plus. apply Qabs_Qle_condition. split; lra.
  - apply is_double_Z. lia.
  - exists q'. by split.
Qed.

Lemma perturb_finite item g (Kv Kc Kp : Z) :
  unit_draws g ->
  (0 <= Kv)%Z -> (0 <= Kc)%Z -> (0 <= Kp)%Z ->
  (Kv + 25 <= 2 ^ 53)%Z -> (Kc + 5 <= 2 ^ 53)%Z -> (Kp + 1 <= 2 ^ 53)%Z ->
  finite_below (inject_Z Kv) (value item) ->
  finite_below (inject_Z Kc) (change item) ->
  finite_below (inject_Z Kp) (changePercent item) ->
  finite_below (inject_Z (Kv + 25)) (value (perturb item g).1) /\
  finite_below (inject_Z (Kc + 5)) (change (perturb item g).1) /\
  finite_below (inject_Z (Kp + 1)) (changePercent (perturb item g).1).
Proof.
  intros Hg Hv0 Hc0 Hp0 Hv1 Hc1 Hp1 (v & Ev & Hv) (c & Ec & Hc) (p & Ep & Hp).
  rewrite perturb_eq. cbn [fst value change changePercent].
  destruct num_values as (_ & _ & _ & Nh & N50 & N10 & N02).
  rewrite Ev, Ec, Ep, Nh, N50, N10, N02.
  split; [|split]; apply field_step; try done; try apply Hg; try lia;
    by apply Qle_bool_iff.
Qed.

Lemma ticks_finite n : forall prev g i item (Kv Kc Kp : Z),
  unit_draws g ->
  prev !! i = Some item ->
  (0 <= Kv)%Z -> (0 <= Kc)%Z -> (0 <= Kp)%Z ->
  (Kv + 25 * Z.of_nat n <= 2 ^ 53)%Z ->
  (Kc + 5 * Z.of_nat n <= 2 ^ 53)%Z ->
  (Kp + Z.of_nat n <= 2 ^ 53)%Z ->
  finite_below (inject_Z Kv) (value item) ->
  finite_below (inject_Z Kc) (change item) ->
  finite_below (inject_Z Kp) (changePercent item) ->
  exists item',
    (ticks n prev g).1 !! i = Some item' /\
    index item' = index item /\
    finite_below (inject_Z (Kv + 25 * Z.of_nat n)) (value item') /\
    finite_below (inject_Z (Kc + 5 * Z.of_nat n)) (change item') /\
    finite_below (inject_Z (Kp + Z.of_nat n)) (changePercent item').
Proof.
  induction n as [|n IH]; intros prev g i item Kv Kc Kp Hg Hi
    Hv0 Hc0 Hp0 Hv1 Hc1 Hp1 Hv Hc Hp.
  - exists item. cbn [ticks fst]. rewrite !Z.mul_0_r, !Z.add_0_r.
    by repeat split.
  - cbn [ticks].
    pose proof (tick_lookup prev g i item Hi) as Hl.
    pose proof (tick_rng prev g) as Hr.
    destruct (tick prev g) as [next g1]. cbn [fst snd] in Hl, Hr.
    set (g0 := mkRng (draws g) (3 * i + taken g)) in *.
    assert (Hg0 : unit_draws g0) by (intros m; apply Hg).
    assert (Hg1 : unit_draws g1) by (rewrite Hr; intros m; apply Hg).
    destruct (perturb_finite item g0 Kv Kc Kp Hg0) as (H1 & H2 & H3);
      try done; try lia.
    destruct (IH next g1 i (perturb item g0).1 (Kv + 25)%Z (Kc + 5)%Z
                 (Kp + 1)%Z Hg1 Hl) as (item' & Hl' & Hi' & F1 & F2 & F3);
      try done; try lia.
    exists item'. split; [done|]. split.
    { rewrite Hi'. by rewrite perturb_eq. }
    replace (Kv + 25 * Z.of_nat (S n))%Z with (Kv + 25 + 25 * Z.of_nat n)%Z
      by lia.
    replace (Kc + 5 * Z.of_nat (S n))%Z with (Kc + 5 + 5 * Z.of_nat n)%Z
      by lia.
    replace (Kp + Z.of_nat (S n))%Z with (Kp + 1 + Z.of_nat n)%Z by lia.
    done.
Qed.

End MoreTicks.

(** After [n] ticks every number of an index is still finite: when its
    three numbers are at most the whole number [K] in size, the value
    is at most [K + 25 n] in size, the change at most [K + 5 n] and the
    percent change at most [K + n], as long as [K + 25 n] is at most
    2^53; the index keeps its place and its name. *)
Theorem ticks_drift_bounded n prev g i item (K : Z) :
  unit_draws g ->
  prev !! i = Some item ->
  (0 <= K)%Z ->
  (K + 25 * Z.of_nat n <= 2 ^ 53)%Z ->
  finite_below (inject_Z K) (value item) ->
  finite_below (inject_Z K) (change item) ->
  finite_below (inject_Z K) (changePercent item) ->
  exists item',
    (ticks n prev g).1 !! i = Some item' /\
    index item' = index item /\
    finite_below (inject_Z (K + 25 * Z.of_nat n)) (value item') /\
    finite_below (inject_Z (K + 5 * Z.of_nat n)) (change item') /\
    finite_below (inject_Z (K + Z.of_nat n)) (changePercent item').
Proof.
  intros Hg Hi HK Hn Hv Hc Hp.
  apply ticks_finite; try done; lia.
Qed.

(** The icon follows the change field and not the movement of the
    value: an index whose change is 5 or more keeps the upward icon
    after a tick, and one whose change is below -5 the downward one,
    while the value, a double, does not rise when its draw is at most
    one half and does not fall when it is at least one half. *)
Theorem icon_follows_change_not_value item g v c :
  unit_draws g ->
  value item = Fin v ->
  is_double v = true ->
  change item = Fin c ->
  let item' := (perturb item g).1 in
  ((5 <= c)%Q -> icon (indicator item') = TrendingUp) /\
  ((c <= - (5) - pow2 (-1074))%Q -> icon (indicator item') = TrendingDown) /\
  ((draws g (taken g) <= 1 # 2)%Q -> at_most (value item') v) /\
  ((1 # 2 <= draws g (taken g))%Q -> at_least (value item') v).
Proof.
  intros Hg Ev Hdv Ec item'. unfold item'. rewrite perturb_eq.
  cbn [fst]. rewrite !indicator_icon. cbn [change value].
  destruct num_values as (N0 & _ & _ & Nh & N50 & N10 & N02).
  rewrite Ev, Ec, Nh, N50, N10.
  destruct (delta_bounded (draws g (S (taken g))) 10 5)
    as (d2 & -> & Hd2 & _);
    [apply Hg|by apply Qle_bool_iff|by apply Qle_bool_iff|by vm_compute|].
  destruct (delta_bounded (draws g (taken g)) 50 25)
    as (d1 & -> & _ & Hle & Hge);
    [apply Hg|by apply Qle_bool_iff|by apply Qle_bool_iff|by vm_compute|].
  apply Qabs_Qle_condition in Hd2 as [Hd2a Hd2b].
  unfold js_add. split; [|split; [|split]].
  - intros H5. rewrite icon_of_at_least; [done|].
    apply round64_ge_double; [lra|done].
  - intros H5.
    assert (Hs : is_double (- pow2 (-1074)) = true) by (by vm_compute).
    rewrite (icon_of_negative _ (- pow2 (-1074))); [done| |].
    + pose proof (pow2_pos (-1074)). lra.
    + apply round64_le_double; [lra|done].
  - intros Hr. specialize (Hle Hr).
    apply round64_le_double; [lra|done].
  - intros Hr. specialize (Hge Hr).
    apply round64_ge_double; [lra|done].
Qed.

(* ===================================================================== *)
(** ** The page run on concrete inputs, with the e-mail pattern of zod *)
(* ===================================================================== *)

Example parseInt_25 : parseInt (lit "25") = Fin 25.
Proof. reflexivity. Qed.

Example parseInt_hex : parseInt (lit " 0x1f") = Fin 31.
Proof. reflexivity. Qed.

Example parseInt_prefix : parseInt (lit "-42px") = Fin (-42).
Proof. reflexivity. Qed.

Example zod_email_samples :
  zod_emailRegex_test (lit "jane@example.com") = true /\
  zod_emailRegex_test (lit "a.b@ex-ample.co.uk") = true /\
  zod_emailRegex_test [] = false /\
  zod_emailRegex_test (lit "a..b@example.com") = false /\
  zod_emailRegex_test (lit "jane@example") = false.
Proof. by vm_compute. Qed.

(** The example record of the specification passes as it is. *)
Example jane_passes :
  applySchema_parse zod_emailRegex_test (candidate_of jane) =
    ParseOk (mkCandidate (VString (lit "Jane Doe")) (VString (lit "9876543210"))
                         (VString (lit "jane@example.com")) (VNumber (Fin 25))
                         (VString (lit "UG"))).
Proof. reflexivity. Qed.

(** Typing the record and pressing submit leaves the page loading with
    one call in flight. *)
Example fill_and_submit :
  let pg := run zod_emailRegex_test (fill_jane ++ [ev_submit]) initial_page in
  ui pg = mkState true false jane ∅ /\
  in_flight pg = [candidate_of jane] /\
  effects pg = [PreventDefault;
                FunctionsInvoke "submit-application" (candidate_of jane)].
Proof. by vm_compute. Qed.

(** The empty name fails both of its checks; the form shows the message
    of the later one. *)
Example blank_name_message :
  name_issues zod_emailRegex_test (candidate_of blank_form) =
    [ mkIssue too_small ["name"] "Name is required";
      mkIssue invalid_string ["name"]
              "Name must contain only letters and spaces" ] /\
  collect_errors
    (object_issues zod_emailRegex_test applySchema (candidate_of blank_form))
    !! "name" = Some "Name must contain only letters and spaces".
Proof. by vm_compute. Qed.

(** The handler has no test of [loading] of its own: the guard is the
    disabled button, which is why [step] asks for an enabled one. *)
Example handleSubmit_has_no_guard :
  let st := mkState true false jane ∅ in
  handleSubmit_begin zod_emailRegex_test st =
    (st, [PreventDefault;
          FunctionsInvoke "submit-application" (candidate_of jane)],
     Some (candidate_of jane)).
Proof. by vm_compute. Qed.

Lemma submit_disabled_while_loading_witness :
  let pg := run zod_emailRegex_test (fill_jane ++ [ev_submit]) initial_page in
  in_flight pg = [candidate_of jane] /\
  loading (ui pg) = true /\
  step zod_emailRegex_test pg ev_submit = pg /\
  (length (in_flight (run zod_emailRegex_test
                        (fill_jane ++ [ev_submit; ev_submit; ev_submit])
                        initial_page)) <= 1)%nat.
Proof.
  split; [reflexivity|].
  destruct (submit_disabled_while_loading zod_emailRegex_test)
    as (_ & Hflight & Hone).
  destruct (Hflight (fill_jane ++ [ev_submit])) as [Hl Hs];
    [vm_compute; discriminate|].
  split; [exact Hl|]. split; [exact Hs|].
  apply (Hone (fill_jane ++ [ev_submit; ev_submit; ev_submit])).
Defined.

Lemma valid_submission_succeeds_witness :
  handleSubmit zod_emailRegex_test (fun _ => Fulfilled VNull None)
               (mkState false false jane ∅) =
    (mkState false true jane ∅,
     [PreventDefault;
      FunctionsInvoke "submit-application" (candidate_of jane);
      SessionStorageSetItem "submission_success" "true";
      SetTimeout (cb_navigate (-1)) 5000]).
Proof.
  destruct (valid_submission_succeeds zod_emailRegex_test
              (mkState false false jane ∅) (candidate_of jane))
    as (_ & _ & _ & _ & H); [reflexivity|].
  apply (H (fun _ => Fulfilled VNull None) VNull). reflexivity.
Defined.

Lemma gateway_failure_reported_witness :
  handleSubmit zod_emailRegex_test
               (fun _ => Fulfilled VNull (Some (mkFunctionsError "timeout")))
               (mkState false false jane ∅) =
    (mkState false false jane ∅,
     [PreventDefault;
      FunctionsInvoke "submit-application" (candidate_of jane);
      ConsoleError "Submission error:" (mkFunctionsError "timeout");
      Toast submission_failed_toast]).
Proof.
  destruct (gateway_failure_reported zod_emailRegex_test
              (mkState false false jane ∅)
              (Fulfilled VNull (Some (mkFunctionsError "timeout")))
              (mkFunctionsError "timeout"))
    as (_ & _ & _ & H & _); [left; exists VNull; reflexivity|].
  apply (H (fun _ => Fulfilled VNull (Some (mkFunctionsError "timeout")))
           (candidate_of jane)); reflexivity.
Defined.

Lemma validation_failure_handled_witness :
  let issues :=
    object_issues zod_emailRegex_test applySchema (candidate_of blank_form) in
  handleSubmit_begin zod_emailRegex_test (mkState false false blank_form ∅) =
    (mkState false false blank_form (collect_errors issues),
     [PreventDefault; Toast validation_toast], None) /\
  (forall f, is_Some (collect_errors issues !! field_key f)).
Proof.
  destruct (validation_failure_handled zod_emailRegex_test
              (mkState false false blank_form ∅)
              (object_issues zod_emailRegex_test applySchema
                 (candidate_of blank_form)))
    as (Hb & _ & _ & _ & _ & _ & _ & _ & _ & Hall & _); [reflexivity|].
  split; [exact Hb|].
  intros f. apply Hall. destruct f; vm_compute; discriminate.
Defined.


Lemma required_field_reported_witness :
  reports "age" (applySchema_parse zod_emailRegex_test (candidate_of blank_form)).
Proof.
  apply (required_field_reported zod_emailRegex_test eq_refl f_age).
  reflexivity.
Defined.

Lemma mobile_rule_witness :
  reports "mobile"
    (applySchema_parse zod_emailRegex_test
       (candidate_of (set_field f_mobile (lit "12345") jane))).
Proof.
  apply (proj1 (proj2 (mobile_rule_exactly_ten_digits zod_emailRegex_test))).
  vm_compute. discriminate.
Defined.

Lemma qualification_outside_enumeration_witness :
  exists errs,
    applySchema_parse zod_emailRegex_test
      (candidate_of (set_field f_qualification (lit "Graduate") jane))
      = ZodError errs /\
    collect_errors errs !! "qualification" =
      Some "Please select a qualification".
Proof.
  destruct (qualification_outside_enumeration zod_emailRegex_test
              (VString (lit "Graduate"))) as (_ & _ & H).
  - intros (s & Hv & Hs). injection Hv as <-. revert Hs.
    apply (bool_decide_eq_false_1 (lit "Graduate" ∈ qualification_values)).
    vm_compute. reflexivity.
  - destruct (H (candidate_of (set_field f_qualification (lit "Graduate") jane))
                eq_refl) as (errs & Herr & _ & _ & Hmsg).
    exists errs. split; assumption.
Defined.

Lemma whitespace_only_name_accepted_witness :
  let c := candidate_of (set_field f_name (lit "   ") jane) in
  name_issues zod_emailRegex_test c = [] /\
  applySchema_parse zod_emailRegex_test c = ParseOk c.
Proof.
  apply (whitespace_only_name_accepted zod_emailRegex_test
           (candidate_of (set_field f_name (lit "   ") jane)) (lit "   "));
    try reflexivity.
  - discriminate.
  - repeat constructor.
Defined.

(** With a draw of 0, BANK NIFTY's percent change goes in one tick from
    the double of -0.29 to a double further than 0.1 from it: the delta
    is half the double of 0.2, which is above 0.1, and the sum rounds
    away from the old value. *)
Lemma percent_step_exceeds_tenth :
  let g := mkRng (fun _ => 0%Q) 0 in
  unit_draws g /\
  exists item item' p p',
    initial_marketData !! 2%nat = Some item /\
    (tick initial_marketData g).1 !! 2%nat = Some item' /\
    index item' = "BANK NIFTY" /\
    changePercent item = Fin p /\ changePercent item' = Fin p' /\
    is_double p = true /\ is_double p' = true /\
    (Qabs (p' - p) == 1801439850948199 # 18014398509481984)%Q /\
    (1 # 10 < Qabs (p' - p))%Q.
Proof.
  split.
  - intros n. split; vm_compute; [discriminate|reflexivity].
  - eexists _, _, (-5224175567749775 # 18014398509481984)%Q,
                  (-3512807709348987 # 9007199254740992)%Q.
    by vm_compute.
Qed.

Lemma tick_perturbation_bounded_witness :
  let g := mkRng (fun _ => 0.25%Q) 0 in
  exists item',
    (tick initial_marketData g).1 !! 2%nat = Some item' /\
    index item' = "BANK NIFTY" /\
    moved_within 25 (num 53234.85) (value item') /\
    moved_within 5 (num (-156.30)) (change item') /\
    moved_within tenth (num (-0.29)) (changePercent item') /\
    icon (indicator item') = TrendingDown.
Proof.
  destruct (tick_perturbation_bounded initial_marketData
              (mkRng (fun _ => 0.25%Q) 0) 2
              (mkMarketData "BANK NIFTY" (num 53234.85) (num (-156.30))
                            (num (-0.29))))
    as (_ & _ & item' & Hl & Hi & _ & Hv & Hc & Hp & Hd).
  - intros n. split; vm_compute; [discriminate|reflexivity].
  - reflexivity.
  - eexists. split; [vm_compute; reflexivity|vm_compute; discriminate].
  - eexists. split; [vm_compute; reflexivity|vm_compute; discriminate].
  - eexists. split; [vm_compute; reflexivity|vm_compute; discriminate].
  - exists item'. split; [exact Hl|]. split; [exact Hi|].
    split; [exact Hv|]. split; [exact Hc|]. split; [exact Hp|].
    vm_compute in Hl. injection Hl as <-.
    destruct (Hd _ eq_refl) as [_ Hdown]. apply Hdown.
    vm_compute. reflexivity.
Defined.

(** The confirmation screen reached by typing the record, submitting and
    a call that succeeds; what is tried afterwards changes nothing. *)
Lemma confirmation_is_final_witness :
  let evs := fill_jane ++ [ev_submit; ev_settle (Fulfilled VNull None)] in
  submitted (ui (run zod_emailRegex_test evs initial_page)) = true /\
  run zod_emailRegex_test
      (evs ++ [ev_change f_name (lit "John"); ev_submit;
               ev_settle (Fulfilled VNull None)])
      initial_page =
    run zod_emailRegex_test evs initial_page.
Proof.
  split; [reflexivity|].
  apply (confirmation_is_final zod_emailRegex_test
           (fill_jane ++ [ev_submit; ev_settle (Fulfilled VNull None)])).
  reflexivity.
Defined.

(** The call made for the example record. *)
Lemma only_valid_records_sent_witness :
  "submit-application" = "submit-application" /\
  applySchema_parse zod_emailRegex_test (candidate_of jane) =
    ParseOk (candidate_of jane) /\
  (exists z, c_age (candidate_of jane) = VNumber (Fin (inject_Z z)) /\
             (18 <= z <= 100)%Z) /\
  (exists m, c_mobile (candidate_of jane) = VString m /\ length m = 10%nat /\
             Forall (fun c => (48 <= c <= 57)%N) m).
Proof.
  apply (only_valid_records_sent zod_emailRegex_test
           (fill_jane ++ [ev_submit]) "submit-application" (candidate_of jane)).
  apply list_elem_of_In. vm_compute. right. left. reflexivity.
Defined.

(** The example record sent, refused by the gateway and sent again. *)
Lemma resubmit_after_failure_witness :
  let o := Rejected (mkFunctionsError "offline") in
  in_flight (run zod_emailRegex_test [ev_submit; ev_settle o; ev_submit]
                 (mkPage (mkState false false jane ∅) [] [])) =
    [candidate_of jane].
Proof.
  destruct (resubmit_after_failure zod_emailRegex_test
              (mkState false false jane ∅) (candidate_of jane)
              (Rejected (mkFunctionsError "offline"))
              (mkFunctionsError "offline") [])
    as [_ H]; [reflexivity|reflexivity|reflexivity|right; reflexivity|].
  cbv zeta. rewrite H. reflexivity.
Defined.

(** Three ticks of the mounted ticker with every draw at one quarter. *)
Lemma ticks_drift_bounded_witness :
  exists item',
    (ticks 3 initial_marketData (mkRng (fun _ => 0.25%Q) 0)).1 !! 0%nat
      = Some item' /\
    index item' = "NIFTY 50" /\
    finite_below (inject_Z 131147) (value item') /\
    finite_below (inject_Z 131087) (change item') /\
    finite_below (inject_Z 131075) (changePercent item').
Proof.
  apply (ticks_drift_bounded 3 initial_marketData
           (mkRng (fun _ => 0.25%Q) 0) 0
           (mkMarketData "NIFTY 50" (num 24857.30) (num 234.50)
                         (num 0.95)) 131072).
  - intros n. split; vm_compute; [discriminate|reflexivity].
  - reflexivity.
  - lia.
  - vm_compute. discriminate.
  - eexists. split; [vm_compute; reflexivity|vm_compute; discriminate].
  - eexists. split; [vm_compute; reflexivity|vm_compute; discriminate].
  - eexists. split; [vm_compute; reflexivity|vm_compute; discriminate].
Defined.

(** An index at +234.50 keeps the upward icon while, its draw being one
    quarter, its value does not rise. *)
Lemma icon_follows_change_not_value_witness :
  let item := mkMarketData "NIFTY 50" (num 24857.30) (num 234.50) (num 0.95) in
  let item' := (perturb item (mkRng (fun _ => 0.25%Q) 0)).1 in
  icon (indicator item') = TrendingUp /\
  at_most (value item') (6832722596279091 # 274877906944).
Proof.
  destruct (icon_follows_change_not_value
              (mkMarketData "NIFTY 50" (num 24857.30) (num 234.50) (num 0.95))
              (mkRng (fun _ => 0.25%Q) 0)
              (6832722596279091 # 274877906944) (469 # 2))
    as (Hup & _ & Hfall & _).
  - intros n. split; vm_compute; [discriminate|reflexivity].
  - vm_compute. reflexivity.
  - vm_compute. reflexivity.
  - vm_compute. reflexivity.
  - split; [apply Hup|apply Hfall]; vm_compute; discriminate.
Defined.
